(** * TaskWhiz: greedy graph colouring and priority scheduling

    A shallow embedding of [app.py]: the colouring function
    [greedy_coloring], the graph-generation guard [generate_graph], and the
    scheduling fragments of [main] (priority sort, start times, Gantt rows,
    overdue list), followed by the properties proved about them.

    Python integers are [Z]; task indices ([range(n_nodes)] and the indices
    returned by [np.where]) are [nat]; the adjacency matrix is a list of
    rows; the [task_*] and [start_times] dictionaries are [gmap nat _]; the
    [neighbor_colors] set is a [gset Z].  Exceptions are explicit. *)

From stdpp Require Import gmap strings list fin_maps fin_sets sorting pretty.

(** ** Exceptions *)

Inductive exn : Type :=
  | IndexError   (* list or array subscript out of range *)
  | KeyError     (* dictionary key missing *)
  | ValueError   (* [max] of an empty iterable *)
  | LoopFuel.    (* the bound given to the model of a [while] loop ran out *)

Inductive res (A : Type) : Type :=
  | Ok (a : A)
  | Raise (e : exn).
Arguments Ok {A} a.
Arguments Raise {A} e.

(** Sequencing: an exception aborts what follows.  The notation
    [x ← m; k] below is the one of this instance. *)
#[global] Instance res_bind : MBind res := λ A B k m,
  match m with
  | Ok a => k a
  | Raise e => Raise e
  end.

#[global] Instance res_fmap : FMap res := λ A B f m,
  match m with
  | Ok a => Ok (f a)
  | Raise e => Raise e
  end.

(** [for x in xs: acc = body(acc, x)] *)
Fixpoint for_each {A S} (body : S → A → res S) (xs : list A) (acc : S) : res S :=
  match xs with
  | [] => Ok acc
  | x :: rest => acc' ← body acc x; for_each body rest acc'
  end.

(** [[f(x) for x in xs]], evaluated left to right *)
Fixpoint comprehension {A B} (f : A → res B) (xs : list A) : res (list B) :=
  match xs with
  | [] => Ok []
  | x :: rest => y ← f x; ys ← comprehension f rest; Ok (y :: ys)
  end.

(** ** Containers *)

Abbreviation matrix := (list (list Z)).

(** [xs[i]] on a list or on the rows of an array, [i] non-negative *)
Definition subscript {A} (xs : list A) (i : nat) : res A :=
  match xs !! i with
  | Some x => Ok x
  | None => Raise IndexError
  end.

(** [d[k]] on a dictionary *)
Definition getitem {A} (d : gmap nat A) (k : nat) : res A :=
  match d !! k with
  | Some x => Ok x
  | None => Raise KeyError
  end.

(** [np.where(row == 1)[0]]: the positions holding 1, in increasing order *)
Definition np_where_eq_1 (row : list Z) : list nat :=
  filter (λ j, row !! j = Some 1%Z) (seq 0 (length row)).

(** ** [greedy_coloring] *)

(** [{colors[neighbor] for neighbor in nbrs if colors[neighbor] != -1}] *)
Fixpoint neighbor_colors (colors : list Z) (nbrs : list nat) : res (gset Z) :=
  match nbrs with
  | [] => Ok ∅
  | neighbor :: rest =>
      c ← subscript colors neighbor;
      s ← neighbor_colors colors rest;
      Ok (if decide (c = (-1)%Z) then s else {[c]} ∪ s)
  end.

(** [while color in neighbor_colors: color += 1], at most [fuel] increments *)
Fixpoint while_color_in (fuel : nat) (used : gset Z) (color : Z) : res Z :=
  if decide (color ∈ used) then
    match fuel with
    | O => Raise LoopFuel
    | S fuel' => while_color_in fuel' used (color + 1)%Z
    end
  else Ok color.

(** The body of [for node in range(n_nodes)]. *)
Definition color_node (adj_matrix : matrix) (colors : list Z) (node : nat)
  : res (list Z) :=
  row ← subscript adj_matrix node;
  used ← neighbor_colors colors (np_where_eq_1 row);
  color ← while_color_in (size used) used 0%Z;
  Ok (<[node := color]> colors).

Definition greedy_coloring (adj_matrix : matrix) : res (list Z) :=
  let n_nodes := length adj_matrix in
  for_each (color_node adj_matrix) (seq 0 n_nodes) (replicate n_nodes (-1)%Z).

(** ** The scheduling part of [main] *)

(** [sorted(xs, key=key)]: the keys are computed once for every element, then
    the elements are sorted by key, elements with equal keys keeping their
    order (Python's sort is stable). *)
Fixpoint insert_by_key {A} (kx : Z * A) (l : list (Z * A)) : list (Z * A) :=
  match l with
  | [] => [kx]
  | ky :: rest =>
      if decide (kx.1 ≤ ky.1)%Z then kx :: ky :: rest
      else ky :: insert_by_key kx rest
  end.

Definition sort_by_key {A} (keyed : list (Z * A)) : list (Z * A) :=
  foldr insert_by_key [] keyed.

Definition sorted {A} (xs : list A) (key : A → res Z) : res (list A) :=
  keys ← comprehension key xs;
  Ok ((sort_by_key (zip keys xs)).*2).

(** [{task: 0 for task in range(n_nodes)}] *)
Definition start_times_init (n_nodes : nat) : gmap nat Z :=
  foldl (λ d task, <[task := 0%Z]> d) ∅ (seq 0 n_nodes).

(** [max(xs)] *)
Definition py_max (xs : list Z) : res Z :=
  match xs with
  | [] => Raise ValueError
  | x :: rest => Ok (foldl Z.max x rest)
  end.

(** The body of [for task in sorted_tasks] that computes the start times. *)
Definition start_task (adj_matrix : matrix) (task_duration : gmap nat Z)
    (start_times : gmap nat Z) (task : nat) : res (gmap nat Z) :=
  row ← subscript adj_matrix task;
  let dependent_tasks := np_where_eq_1 row in
  if decide (0 < length dependent_tasks) then
    ends ← comprehension
              (λ dep, s ← getitem start_times dep;
                      d ← getitem task_duration dep;
                      Ok (s + d)%Z)
              dependent_tasks;
    latest ← py_max ends;
    Ok (<[task := latest]> start_times)
  else Ok start_times.

Definition compute_start_times (adj_matrix : matrix)
    (task_duration : gmap nat Z) (sorted_tasks : list nat) (n_nodes : nat)
  : res (gmap nat Z) :=
  for_each (start_task adj_matrix task_duration) sorted_tasks
           (start_times_init n_nodes).

(** One dictionary of [gantt_data]. *)
Record gantt_row : Type := GanttRow {
  Task : string;
  Start : Z;
  Finish : Z;
  Resource : string;
}.

Definition gantt_entry (task_descriptions : gmap nat string)
    (start_times task_duration : gmap nat Z) (assigned_colors : list Z)
    (task : nat) : res gantt_row :=
  description ← getitem task_descriptions task;
  start ← getitem start_times task;
  start' ← getitem start_times task;
  duration ← getitem task_duration task;
  color ← subscript assigned_colors task;
  Ok {| Task := description;
        Start := start;
        Finish := (start' + duration)%Z;
        Resource := "Resource " +:+ pretty (color + 1)%Z |}.

(** [f"Task {task + 1}"] *)
Definition task_label (task : nat) : string :=
  "Task " +:+ pretty (task + 1).

(** [[f"Task {task + 1}" for task in tasks
      if start_times[task] + task_duration[task] > task_deadlines[task]]] *)
Fixpoint overdue_tasks (start_times task_duration task_deadlines : gmap nat Z)
    (tasks : list nat) : res (list string) :=
  match tasks with
  | [] => Ok []
  | task :: rest =>
      start ← getitem start_times task;
      duration ← getitem task_duration task;
      deadline ← getitem task_deadlines task;
      more ← overdue_tasks start_times task_duration task_deadlines rest;
      Ok (if decide (start + duration > deadline)%Z
          then task_label task :: more else more)
  end.

(** The scheduling statements of [main] on their own, in the order in which
    they run: the priority sort (line 97), the start-time loop (126-130), the
    Gantt rows (134-141) and the overdue list (169).  In [main] the loop of
    the bars (145-154) runs between the rows and the overdue list and can
    raise; it is not in this function but in [execution_timeline] and
    [allocate] below, which are the ones to use for what [main] reports. *)
Definition schedule (adj_matrix : matrix) (n_nodes : nat)
    (task_duration task_deadlines task_priorities : gmap nat Z)
    (task_descriptions : gmap nat string) (assigned_colors : list Z)
  : res (list nat * gmap nat Z * list gantt_row * list string) :=
  sorted_tasks ← sorted (seq 0 n_nodes) (getitem task_priorities);
  start_times ← compute_start_times adj_matrix task_duration sorted_tasks n_nodes;
  gantt_data ← comprehension
                  (gantt_entry task_descriptions start_times task_duration
                               assigned_colors)
                  sorted_tasks;
  overdue ← overdue_tasks start_times task_duration task_deadlines sorted_tasks;
  Ok (sorted_tasks, start_times, gantt_data, overdue).

(** ** [generate_graph] and the call of the colouring in [main] *)

(** A call of [st.error]. *)
Inductive st_error : Type :=
  | NodesAtLeastOne        (* "Number of nodes must be at least 1!" *)
  | DensityBetween0And1    (* "Graph density must be between 0 and 1!" *)
  | FailedToGenerate.      (* "Failed to generate the graph. Please check the parameters." *)

Section Generate.
(** The graph library is a parameter: the type of graphs, the graph drawn
    by [nx.fast_gnp_random_graph] in this run, and [nx.to_numpy_array].
    The density is a float, of which only the two comparisons are used. *)
Context {Graph Prob : Type}.
Variable prob_lt_0 prob_gt_1 : Prob → bool.
Variable fast_gnp_random_graph : Z → Prob → Graph.
Variable to_numpy_array : Graph → matrix.

(** Returns the errors shown and the pair [(G, adj_matrix)]. *)
Definition generate_graph (n_nodes : Z) (prob : Prob)
  : list st_error * (option Graph * option matrix) :=
  if decide (n_nodes < 1)%Z then ([NodesAtLeastOne], (None, None))
  else if prob_lt_0 prob || prob_gt_1 prob
  then ([DensityBetween0And1], (None, None))
  else
    let G := fast_gnp_random_graph n_nodes prob in
    let adj_matrix := to_numpy_array G in
    ([], (Some G, Some adj_matrix)).

(** The beginning of the button branch of [main]: the graph is generated
    and, unless [G is None or adj_matrix is None], [greedy_coloring] is
    called on the matrix.  Returns the errors shown so far and the outcome
    of the call when it is made. *)
Definition main_coloring (n_nodes : Z) (prob : Prob)
  : list st_error * option (res (list Z)) :=
  let '(shown, (G, adj_matrix)) := generate_graph n_nodes prob in
  match G, adj_matrix with
  | Some _, Some adj_matrix => (shown, Some (greedy_coloring adj_matrix))
  | _, _ => (shown ++ [FailedToGenerate], None)
  end.
End Generate.

(** ** Vocabulary of the statements *)

(** [adj_matrix] has [n] rows of [n] entries. *)
Definition square (adj_matrix : matrix) (n : nat) : Prop :=
  length adj_matrix = n ∧ ∀ row, row ∈ adj_matrix → length row = n.

(** [adj_matrix[i][j]], when both indices are in range. *)
Definition entry (adj_matrix : matrix) (i j : nat) : option Z :=
  row ← adj_matrix !! i; row !! j.

(** [j] is a neighbour of [i]: the test [adj_matrix[i] == 1] of the code. *)
Definition edge (adj_matrix : matrix) (i j : nat) : Prop :=
  entry adj_matrix i j = Some 1%Z.

Definition symmetric (adj_matrix : matrix) : Prop :=
  ∀ i j, entry adj_matrix i j = entry adj_matrix j i.

Definition zero_diagonal (adj_matrix : matrix) : Prop :=
  ∀ i, i < length adj_matrix → entry adj_matrix i i = Some 0%Z.

(** Number of neighbours of the node whose row is [row]. *)
Definition degree (row : list Z) : nat := length (np_where_eq_1 row).

Definition max_degree (adj_matrix : matrix) : nat :=
  max_list (degree <$> adj_matrix).

(** The matrix with every diagonal entry replaced by 0. *)
Definition clear_diagonal (adj_matrix : matrix) : matrix :=
  imap (λ i row, <[i := 0%Z]> row) adj_matrix.

(** [c] is the smallest non-negative integer that is not the colour of a
    neighbour of [i] with a smaller index. *)
Definition smallest_free (adj_matrix : matrix) (colors : list Z)
    (i : nat) (c : Z) : Prop :=
  (0 ≤ c)%Z ∧
  (∀ j, j < i → edge adj_matrix i j → colors !! j ≠ Some c) ∧
  (∀ c', (0 ≤ c' < c)%Z →
         ∃ j, j < i ∧ edge adj_matrix i j ∧ colors !! j = Some c').

(** State of [colors] when the loop of [greedy_coloring] is about to treat
    node [k]. *)
Definition colored_upto (adj_matrix : matrix) (n k : nat) (colors : list Z)
  : Prop :=
  length colors = n ∧
  (∀ j, k ≤ j < n → colors !! j = Some (-1)%Z) ∧
  (∀ i row, i < k → adj_matrix !! i = Some row →
     ∃ c, colors !! i = Some c ∧ smallest_free adj_matrix colors i c ∧
          (c ≤ Z.of_nat (degree row))%Z).

(** The dictionary [d] has the keys [0..n-1]. *)
Definition defined_on {A} (d : gmap nat A) (n : nat) : Prop :=
  ∀ i, i < n → is_Some (d !! i).

(** Order on (key, index) pairs: by key, then by index. *)
Definition key_before (kx ky : Z * nat) : Prop :=
  (kx.1 < ky.1)%Z ∨ (kx.1 = ky.1 ∧ kx.2 < ky.2).

(** [a] comes before [b] in the priority order: lower priority value first,
    equal values by increasing index. *)
Definition task_before (task_priorities : gmap nat Z) (a b : nat) : Prop :=
  ∃ pa pb, task_priorities !! a = Some pa ∧ task_priorities !! b = Some pb ∧
           ((pa < pb)%Z ∨ (pa = pb ∧ a < b)).

(** The start value the loop reads for [d] once the tasks in [visited] have
    been treated: its start time if it has been treated, the initial 0
    otherwise. *)
Definition current_start (visited : list nat) (start_times : gmap nat Z)
    (d : nat) : Z :=
  if decide (d ∈ visited) then default 0%Z (start_times !! d) else 0%Z.

(** [m] is the maximum of [cur d + duration d] over the neighbours [d] of [t]. *)
Definition latest_end (adj_matrix : matrix) (task_duration : gmap nat Z)
    (cur : nat → Z) (t : nat) (m : Z) : Prop :=
  (∃ d du, edge adj_matrix t d ∧ task_duration !! d = Some du ∧
           m = (cur d + du)%Z) ∧
  (∀ d, edge adj_matrix t d →
        ∃ du, task_duration !! d = Some du ∧ (cur d + du ≤ m)%Z).

(** The start time of the task [t] visited at position [k] of [order]. *)
Definition start_rule (adj_matrix : matrix) (task_duration : gmap nat Z)
    (order : list nat) (start_times : gmap nat Z) (k t : nat) : Prop :=
  ((∀ d, ¬ edge adj_matrix t d) → start_times !! t = Some 0%Z) ∧
  ((∃ d, edge adj_matrix t d) →
     ∃ m, start_times !! t = Some m ∧
          latest_end adj_matrix task_duration
                     (current_start (take k order) start_times) t m).

(** State of [start_times] once the tasks of [visited] have been treated. *)
Definition start_times_upto (adj_matrix : matrix) (n : nat)
    (task_duration : gmap nat Z) (visited : list nat)
    (start_times : gmap nat Z) : Prop :=
  defined_on start_times n ∧
  (∀ d, d < n → d ∉ visited → start_times !! d = Some 0%Z) ∧
  (∀ k t, visited !! k = Some t →
          start_rule adj_matrix task_duration visited start_times k t).

Definition finish_after_deadline
    (start_times task_duration task_deadlines : gmap nat Z) (t : nat) : Prop :=
  ∃ start duration deadline,
    start_times !! t = Some start ∧ task_duration !! t = Some duration ∧
    task_deadlines !! t = Some deadline ∧ (start + duration > deadline)%Z.

(** The inputs [main] builds: an [n]-by-[n] matrix, the four dictionaries
    filled for the tasks [0..n-1], and one colour per task. *)
Definition well_formed (adj_matrix : matrix) (n : nat)
    (task_duration task_deadlines task_priorities : gmap nat Z)
    (task_descriptions : gmap nat string) (assigned_colors : list Z) : Prop :=
  square adj_matrix n ∧ defined_on task_duration n ∧
  defined_on task_deadlines n ∧ defined_on task_priorities n ∧
  defined_on task_descriptions n ∧ length assigned_colors = n.

(** The numbers of a row. *)
Definition times (row : gantt_row) : Z * Z := (Start row, Finish row).

(** A result of [schedule] without descriptions and resource labels. *)
Definition timeline
    (r : list nat * gmap nat Z * list gantt_row * list string)
  : list nat * gmap nat Z * list (Z * Z) * list string :=
  let '(sorted_tasks, start_times, gantt_data, overdue) := r in
  (sorted_tasks, start_times, times <$> gantt_data, overdue).

(** The same without the overdue list. *)
Definition numbers
    (r : list nat * gmap nat Z * list gantt_row * list string)
  : list nat * gmap nat Z * list (Z * Z) :=
  (timeline r).1.

(** ** Concrete inputs *)

(** Three tasks, edges (0,1) and (1,2). *)
Definition path3 : matrix := [[0;1;0];[1;0;1];[0;1;0]]%Z.

(** Two tasks joined by an edge, durations 2 and 2, priorities 1 and 2. *)
Definition scenario3_adj : matrix := [[0;1];[1;0]]%Z.
Definition scenario3_duration : gmap nat Z := <[1 := 2%Z]> (<[0 := 2%Z]> ∅).
Definition scenario3_priorities : gmap nat Z := <[1 := 2%Z]> (<[0 := 1%Z]> ∅).

(** The values the deadline sliders and the description inputs start with. *)
Definition default_deadlines : gmap nat Z := <[1 := 10%Z]> (<[0 := 10%Z]> ∅).
Definition default_descriptions : gmap nat string :=
  <[1 := "Task 2"]> (<[0 := "Task 1"]> ∅).

(** Two tasks left at the priority the slider starts with. *)
Definition default_priorities : gmap nat Z := <[1 := 1%Z]> (<[0 := 1%Z]> ∅).

(** Other deadlines, descriptions and colours for two tasks. *)
Definition early_deadlines : gmap nat Z := <[1 := 3%Z]> (<[0 := 3%Z]> ∅).
Definition other_descriptions : gmap nat string :=
  <[1 := "deploy"]> (<[0 := "build"]> ∅).
Definition other_colors : list Z := [7; 7]%Z.

(** ** The display colours, the bars of the timeline and the overdue message *)

(** [generate_color_map]: the dictionary
    [{i: mcolors.rgb2hex(cmap(i)[:3]) for i in range(n_colors)}].  The colour
    map of matplotlib is a parameter: [cmap_hex n_colors i] stands for the
    hexadecimal colour of entry [i] of [plt.cm.get_cmap('tab20', n_colors)]. *)
Definition generate_color_map (cmap_hex : nat → nat → string) (n_colors : nat)
  : gmap Z string :=
  foldl (λ d i, <[Z.of_nat i := cmap_hex n_colors i]> d) ∅ (seq 0 n_colors).

(** [color_map[c]] *)
Definition getcolor (color_map : gmap Z string) (c : Z) : res string :=
  match color_map !! c with
  | Some x => Ok x
  | None => Raise KeyError
  end.

(** [[color_map[assigned_colors[node] % n_colors] for node in range(n_nodes)]].
    [n_colors] comes from a number input whose least value is 1. *)
Definition node_colors (color_map : gmap Z string) (n_colors : positive)
    (assigned_colors : list Z) (n_nodes : nat) : res (list string) :=
  comprehension
    (λ node, c ← subscript assigned_colors node;
             getcolor color_map (c `mod` Z.pos n_colors)%Z)
    (seq 0 n_nodes).

(** The data of one [go.Bar]. *)
Record bar : Type := Bar {
  bar_x : Z;
  bar_y : string;
  bar_base : Z;
  bar_name : string;
  bar_color : string;
}.

(** The bar added for [task] in [for task in sorted_tasks: fig.add_trace(...)]:
    its data are read from [gantt_data[task]], its colour from
    [color_map[assigned_colors[task]]]. *)
Definition add_trace (gantt_data : list gantt_row) (assigned_colors : list Z)
    (color_map : gmap Z string) (task : nat) : res bar :=
  row ← subscript gantt_data task;
  c ← subscript assigned_colors task;
  color ← getcolor color_map c;
  Ok {| bar_x := (Finish row - Start row)%Z;
        bar_y := Task row;
        bar_base := Start row;
        bar_name := Resource row;
        bar_color := color |}.

(** [', '.join(xs)] *)
Fixpoint join (sep : string) (xs : list string) : string :=
  match xs with
  | [] => ""
  | x :: rest =>
      match rest with
      | [] => x
      | _ :: _ => x +:+ sep +:+ join sep rest
      end
  end.

(** The message of [st.error] after the overdue check, if it is shown. *)
Definition overdue_error (overdue : list string) : option string :=
  match overdue with
  | [] => None
  | _ :: _ => Some ("The following tasks are overdue: " +:+ join ", " overdue)
  end.

(** What the [try] block of [main] computes. *)
Record allocation : Type := Allocation {
  alloc_colors : list Z;
  alloc_node_colors : list string;
  alloc_sorted_tasks : list nat;
  alloc_start_times : gmap nat Z;
  alloc_gantt_data : list gantt_row;
  alloc_bars : list bar;
  alloc_overdue : list string;
  alloc_error : option string;
}.

(** The [try] block of [main], statement by statement, the calls that only
    display left out; an exception ends it (and [main] shows it). *)
Definition allocate (cmap_hex : nat → nat → string) (n_colors : positive)
    (adj_matrix : matrix) (n_nodes : nat)
    (task_duration task_deadlines task_priorities : gmap nat Z)
    (task_descriptions : gmap nat string) : res allocation :=
  assigned_colors ← greedy_coloring adj_matrix;
  let color_map := generate_color_map cmap_hex (Pos.to_nat n_colors) in
  node_cols ← node_colors color_map n_colors assigned_colors n_nodes;
  sorted_tasks ← sorted (seq 0 n_nodes) (getitem task_priorities);
  start_times ← compute_start_times adj_matrix task_duration sorted_tasks n_nodes;
  gantt_data ← comprehension
                  (gantt_entry task_descriptions start_times task_duration
                               assigned_colors)
                  sorted_tasks;
  bars ← comprehension (add_trace gantt_data assigned_colors color_map)
                       sorted_tasks;
  overdue ← overdue_tasks start_times task_duration task_deadlines sorted_tasks;
  Ok {| alloc_colors := assigned_colors;
        alloc_node_colors := node_cols;
        alloc_sorted_tasks := sorted_tasks;
        alloc_start_times := start_times;
        alloc_gantt_data := gantt_data;
        alloc_bars := bars;
        alloc_overdue := overdue;
        alloc_error := overdue_error overdue |}.

(** The statements of the [try] block that follow the colouring and the node
    colours, with the colours and the colour map as they stand at that point:
    the priority sort, the start times, the Gantt rows, the bars, then the
    overdue list.  An exception in the bars ends the block before the overdue
    list is built. *)
Definition execution_timeline (adj_matrix : matrix) (n_nodes : nat)
    (task_duration task_deadlines task_priorities : gmap nat Z)
    (task_descriptions : gmap nat string) (assigned_colors : list Z)
    (color_map : gmap Z string)
  : res (list nat * gmap nat Z * list gantt_row * list bar * list string) :=
  sorted_tasks ← sorted (seq 0 n_nodes) (getitem task_priorities);
  start_times ← compute_start_times adj_matrix task_duration sorted_tasks n_nodes;
  gantt_data ← comprehension
                  (gantt_entry task_descriptions start_times task_duration
                               assigned_colors)
                  sorted_tasks;
  bars ← comprehension (add_trace gantt_data assigned_colors color_map)
                       sorted_tasks;
  overdue ← overdue_tasks start_times task_duration task_deadlines sorted_tasks;
  Ok (sorted_tasks, start_times, gantt_data, bars, overdue).

(** A result of [execution_timeline] without descriptions, resource labels
    and bars: the order, the start times, the start and finish of the rows
    and the overdue list. *)
Definition report
    (r : list nat * gmap nat Z * list gantt_row * list bar * list string)
  : list nat * gmap nat Z * list (Z * Z) * list string :=
  let '(sorted_tasks, start_times, gantt_data, _, overdue) := r in
  (sorted_tasks, start_times, times <$> gantt_data, overdue).

(** ** Further vocabulary *)

(** No row of [adj_matrix] has a 1 in a column beyond the number of rows. *)
Definition in_range (adj_matrix : matrix) : Prop :=
  Forall (λ row, Forall (λ j, j < length adj_matrix) (np_where_eq_1 row))
         adj_matrix.

(** [a] and [b] have the same neighbours of smaller index. *)
Definition same_below (a b : matrix) : Prop :=
  length a = length b ∧ ∀ i j, j < i → (edge a i j ↔ edge b i j).

(** [colors] before node [k] is treated, for [n] nodes: the treated nodes
    have a colour between 0 and their index, the others the value -1. *)
Definition loop_state (n k : nat) (colors : list Z) : Prop :=
  length colors = n ∧
  (∀ j, k ≤ j < n → colors !! j = Some (-1)%Z) ∧
  (∀ i c, i < k → colors !! i = Some c → (0 ≤ c ≤ Z.of_nat i)%Z).

(** * Lemmas *)

(** ** The exception monad *)

Lemma bind_Ok {A B} (m : res A) (k : A → res B) (b : B) :
  m ≫= k = Ok b ↔ ∃ a, m = Ok a ∧ k a = Ok b.
Proof.
  destruct m as [a|e]; simpl.
  - split; [by exists a|]. intros (a' & Ha & Hk). by injection Ha as <-.
  - split; [done | intros (? & Hm & _); discriminate Hm].
Qed.

Lemma for_each_app {A S} (body : S → A → res S) xs ys acc :
  for_each body (xs ++ ys) acc = for_each body xs acc ≫= for_each body ys.
Proof.
  revert acc. induction xs as [|x xs IH]; intros acc; simpl; [done|].
  destruct (body acc x) as [acc'|e]; simpl; [apply IH | done].
Qed.

Lemma for_each_snoc {A S} (body : S → A → res S) xs x acc :
  for_each body (xs ++ [x]) acc = (acc' ← for_each body xs acc; body acc' x).
Proof.
  rewrite for_each_app. destruct (for_each body xs acc) as [acc'|e]; simpl; [|done].
  by destruct (body acc' x).
Qed.

(** ** Neighbours *)

Lemma elem_of_np_where_eq_1 (row : list Z) (j : nat) :
  j ∈ np_where_eq_1 row ↔ row !! j = Some 1%Z.
Proof.
  unfold np_where_eq_1. rewrite list_elem_of_filter, elem_of_seq.
  split; [tauto|]. intros Hj. split; [done|].
  apply lookup_lt_Some in Hj. lia.
Qed.

Lemma np_where_eq_1_lt (row : list Z) (j : nat) :
  j ∈ np_where_eq_1 row → j < length row.
Proof. rewrite elem_of_np_where_eq_1. apply lookup_lt_Some. Qed.

Lemma np_where_eq_1_insert_0 (row : list Z) (k : nat) :
  np_where_eq_1 (<[k := 0%Z]> row) = filter (λ j, j ≠ k) (np_where_eq_1 row).
Proof.
  unfold np_where_eq_1. rewrite length_insert, list_filter_filter.
  apply list_filter_iff. intros j. destruct (decide (k = j)) as [->|Hne].
  - split; [|tauto]. intros Hj.
    assert (j < length row).
    { apply lookup_lt_Some in Hj. by rewrite length_insert in Hj. }
    rewrite list_lookup_insert_eq in Hj by done. done.
  - rewrite list_lookup_insert_ne by done.
    split; [intros ?; split; [congruence|done] | by intros [_ ?]].
Qed.

Lemma edge_lookup (adj_matrix : matrix) (i j : nat) (row : list Z) :
  adj_matrix !! i = Some row → edge adj_matrix i j ↔ j ∈ np_where_eq_1 row.
Proof.
  intros Hrow. unfold edge, entry. rewrite Hrow. simpl.
  by rewrite elem_of_np_where_eq_1.
Qed.

(** ** The set of neighbour colours and the search for a free colour *)

Lemma neighbor_colors_Ok (colors : list Z) (nbrs : list nat) :
  (∀ nb, nb ∈ nbrs → nb < length colors) →
  ∃ used, neighbor_colors colors nbrs = Ok used ∧
    (∀ c, c ∈ used ↔
          c ≠ (-1)%Z ∧ ∃ nb, nb ∈ nbrs ∧ colors !! nb = Some c) ∧
    size used ≤ length nbrs.
Proof.
  induction nbrs as [|nb nbrs IH]; intros Hlt; simpl.
  - exists ∅. split; [done|]. split; [|by rewrite size_empty].
    intros c. split; [set_solver|]. intros (_ & ? & Hnb & _). by apply elem_of_nil in Hnb.
  - destruct IH as (used & -> & Hused & Hsize).
    { intros ??. apply Hlt. by right. }
    destruct (lookup_lt_is_Some_2 colors nb) as [c Hc]; [apply Hlt; by left|].
    unfold subscript. rewrite Hc. simpl.
    eexists. split; [done|]. case_decide as Hsent.
    + split; [|lia]. intros c'. rewrite Hused. split.
      * intros (? & nb' & ? & ?). split; [done|]. exists nb'. split; [by right|done].
      * intros (? & nb' & [->|?]%elem_of_cons & ?); [congruence|]. eauto.
    + split.
      * intros c'. rewrite elem_of_union, elem_of_singleton, Hused. split.
        -- intros [->|(? & nb' & ? & ?)].
           ++ split; [done|]. exists nb. split; [by left|done].
           ++ split; [done|]. exists nb'. split; [by right|done].
        -- intros (? & nb' & [->|?]%elem_of_cons & ?); [left; congruence|].
           right. eauto.
      * rewrite size_union_alt, size_singleton.
        assert (size (used ∖ {[c]}) ≤ size used)
          by (apply subseteq_size; intros x [? _]%elem_of_difference; done).
        simpl. lia.
Qed.

Lemma while_color_in_Ok (fuel : nat) (used : gset Z) (color : Z) :
  size (filter (λ c, color ≤ c)%Z used) ≤ fuel →
  ∃ r, while_color_in fuel used color = Ok r ∧
    (color ≤ r)%Z ∧ (r ≤ color + Z.of_nat fuel)%Z ∧ (r ∉ used) ∧
    ∀ c, (color ≤ c < r)%Z → c ∈ used.
Proof.
  revert color. induction fuel as [|fuel IH]; intros color Hsize; simpl.
  - case_decide as Hin.
    + assert (color ∈ filter (λ c, color ≤ c)%Z used) as Hf
        by (apply elem_of_filter; split; [lia|done]).
      apply size_empty_inv in Hf; [done|]. lia.
    + exists color. repeat split; [lia..|done|lia].
  - case_decide as Hin.
    + destruct (IH (color + 1)%Z) as (r & -> & Hr & Hr' & Hfree & Hbelow).
      { assert (filter (λ c, color + 1 ≤ c)%Z used ⊂ filter (λ c, color ≤ c)%Z used)
          as Hsub%subset_size; [|lia].
        split.
        - intros c. rewrite !elem_of_filter. intros [??]. split; [lia|done].
        - intros Hsub. specialize (Hsub color). rewrite !elem_of_filter in Hsub.
          destruct Hsub; [split; [lia|done]|lia]. }
      exists r. split; [done|]. split; [lia|]. split; [lia|]. split; [done|].
      intros c Hc. destruct (decide (c = color)) as [->|]; [done|].
      apply Hbelow. lia.
    + exists color. repeat split; [lia..|done|lia].
Qed.

Lemma first_free_color (used : gset Z) :
  ∃ r, while_color_in (size used) used 0 = Ok r ∧
    (0 ≤ r)%Z ∧ (r ≤ Z.of_nat (size used))%Z ∧ (r ∉ used) ∧ ∀ c, (0 ≤ c < r)%Z → c ∈ used.
Proof.
  apply while_color_in_Ok, subseteq_size. intros c. rewrite elem_of_filter. tauto.
Qed.

(** ** The colouring loop *)

Lemma smallest_free_agree adj_matrix colors colors' i c :
  (∀ j, j < i → colors' !! j = colors !! j) →
  smallest_free adj_matrix colors i c → smallest_free adj_matrix colors' i c.
Proof.
  intros Hagree (Hc & Hfree & Hbelow). split; [done|]. split.
  - intros j Hj Hedge. rewrite Hagree by done. by apply Hfree.
  - intros c' Hc'. destruct (Hbelow c' Hc') as (j & Hj & Hedge & Hcol).
    exists j. by rewrite Hagree.
Qed.

Lemma color_node_shape adj_matrix colors node colors' :
  color_node adj_matrix colors node = Ok colors' →
  ∃ color, colors' = <[node := color]> colors.
Proof.
  unfold color_node. intros (row & _ & H)%bind_Ok.
  apply bind_Ok in H as (used & _ & H). apply bind_Ok in H as (color & _ & H).
  exists color. congruence.
Qed.

Section Coloring.
Variable adj_matrix : matrix.
Variable n : nat.
Hypothesis Hsquare : square adj_matrix n.

Lemma colored_upto_init : colored_upto adj_matrix n 0 (replicate n (-1)%Z).
Proof.
  split; [by rewrite length_replicate|]. split; [|lia].
  intros j Hj. apply lookup_replicate_2. lia.
Qed.

Lemma color_node_step k colors :
  k < n → colored_upto adj_matrix n k colors →
  ∃ colors', color_node adj_matrix colors k = Ok colors' ∧
             colored_upto adj_matrix n (S k) colors'.
Proof.
  intros Hk (Hlen & Hrest & Hdone). destruct Hsquare as [Hrows Hcols].
  destruct (lookup_lt_is_Some_2 adj_matrix k) as [row Hrow]; [lia|].
  assert (length row = n) as Hrowlen
    by (apply Hcols; by eapply list_elem_of_lookup_2).
  unfold color_node, subscript. rewrite Hrow. simpl.
  destruct (neighbor_colors_Ok colors (np_where_eq_1 row))
    as (used & -> & Hused & Hsize).
  { intros nb Hnb%np_where_eq_1_lt. lia. }
  simpl. destruct (first_free_color used) as (r & -> & Hr0 & Hrsize & Hfree & Hbelow).
  simpl. eexists. split; [done|].
  assert (∀ j, j < k → <[k := r]> colors !! j = colors !! j) as Hold
    by (intros j Hj; apply list_lookup_insert_ne; lia).
  split; [by rewrite length_insert|]. split.
  { intros j Hj. rewrite list_lookup_insert_ne by lia. apply Hrest. lia. }
  intros i row' Hi Hrow'. destruct (decide (i = k)) as [->|Hne].
  - assert (row' = row) as -> by congruence.
    exists r. split; [apply list_lookup_insert_eq; lia|]. split.
    + split; [done|]. split.
      * intros j Hj Hedge. rewrite Hold by done. intros Hcol.
        apply Hfree, Hused. split.
        -- destruct (lookup_lt_is_Some_2 adj_matrix j) as [rowj Hrowj]; [lia|].
           destruct (Hdone j rowj Hj Hrowj) as (c & Hc & (Hc0 & _) & _).
           assert (c = r) by congruence. lia.
        -- exists j. split; [|done]. by apply (edge_lookup adj_matrix k j row).
      * intros c' Hc'. apply Hbelow, Hused in Hc' as Hin.
        destruct Hin as (Hsent & nb & Hnb & Hcol).
        assert (nb < k).
        { destruct (decide (nb < k)); [done|].
          apply np_where_eq_1_lt in Hnb as Hlt.
          rewrite Hrest in Hcol by lia. congruence. }
        exists nb. split; [done|]. split; [by eapply edge_lookup|].
        by rewrite Hold.
    + unfold degree. lia.
  - destruct (Hdone i row' ltac:(lia) Hrow') as (c & Hc & Hsmall & Hdeg).
    exists c. split; [rewrite list_lookup_insert_ne by lia; done|].
    split; [|done]. eapply smallest_free_agree; [|done].
    intros j Hj. apply list_lookup_insert_ne. lia.
Qed.

Lemma coloring_prefix k :
  k ≤ n →
  ∃ colors,
    for_each (color_node adj_matrix) (seq 0 k) (replicate n (-1)%Z) = Ok colors ∧
    colored_upto adj_matrix n k colors.
Proof.
  induction k as [|k IH]; intros Hk.
  - exists (replicate n (-1)%Z). split; [done | apply colored_upto_init].
  - destruct IH as (colors & Hrun & Hinv); [lia|].
    destruct (color_node_step k colors) as (colors' & Hstep & Hinv'); [lia|done|].
    exists colors'. split; [|done].
    rewrite seq_S, for_each_snoc, Hrun. done.
Qed.

Lemma greedy_coloring_Ok :
  ∃ colors, greedy_coloring adj_matrix = Ok colors ∧ colored_upto adj_matrix n n colors.
Proof.
  unfold greedy_coloring. destruct Hsquare as [-> _]. by apply coloring_prefix.
Qed.
End Coloring.

Lemma edge_lt adj_matrix n i j :
  square adj_matrix n → edge adj_matrix i j → i < n ∧ j < n.
Proof.
  intros [Hrows Hcols]. unfold edge, entry.
  destruct (adj_matrix !! i) as [row|] eqn:Hrow; simpl; [|done].
  intros Hj%lookup_lt_Some. apply lookup_lt_Some in Hrow as Hi.
  rewrite (Hcols row) in Hj by (by eapply list_elem_of_lookup_2). lia.
Qed.

Lemma degree_le_max_degree (adj_matrix : matrix) i row :
  adj_matrix !! i = Some row → degree row ≤ max_degree adj_matrix.
Proof.
  intros Hrow. apply max_list_elem_of_le, list_elem_of_fmap.
  exists row. split; [done|]. by eapply list_elem_of_lookup_2.
Qed.

Lemma neighbor_colors_skip (colors : list Z) (nbrs : list nat) (k : nat) :
  colors !! k = Some (-1)%Z →
  neighbor_colors colors (filter (λ j, j ≠ k) nbrs) = neighbor_colors colors nbrs.
Proof.
  intros Hk. induction nbrs as [|nb nbrs IH]; [done|].
  rewrite filter_cons. case_decide as Hnb; simpl.
  - by rewrite IH.
  - subst nb. unfold subscript at 1. rewrite Hk. simpl.
    rewrite IH. by destruct (neighbor_colors colors nbrs).
Qed.

Lemma color_node_clear_diagonal (adj_matrix : matrix) (colors : list Z) (k : nat) :
  colors !! k = Some (-1)%Z →
  color_node (clear_diagonal adj_matrix) colors k = color_node adj_matrix colors k.
Proof.
  intros Hk. unfold color_node, clear_diagonal, subscript.
  rewrite list_lookup_imap. destruct (adj_matrix !! k) as [row|]; simpl; [|done].
  by rewrite np_where_eq_1_insert_0, neighbor_colors_skip.
Qed.

Lemma for_each_color_clear_diagonal (adj_matrix : matrix) (m k : nat) (colors : list Z) :
  (∀ j, k ≤ j < k + m → colors !! j = Some (-1)%Z) →
  for_each (color_node (clear_diagonal adj_matrix)) (seq k m) colors =
  for_each (color_node adj_matrix) (seq k m) colors.
Proof.
  revert k colors. induction m as [|m IH]; intros k colors Hrest; simpl; [done|].
  rewrite color_node_clear_diagonal by (apply Hrest; lia).
  destruct (color_node adj_matrix colors k) as [colors'|e] eqn:Hstep; simpl; [|done].
  apply color_node_shape in Hstep as [color ->].
  apply IH. intros j Hj. rewrite list_lookup_insert_ne by lia. apply Hrest. lia.
Qed.

(** ** Comprehensions, [max] *)

Lemma comprehension_Ok {A B} (f : A → res B) xs ys :
  comprehension f xs = Ok ys ↔ Forall2 (λ x y, f x = Ok y) xs ys.
Proof.
  revert ys. induction xs as [|x xs IH]; intros ys; simpl.
  - split; [intros [= <-]; constructor | by intros ->%Forall2_nil_inv_l].
  - rewrite bind_Ok. split.
    + intros (y & Hy & (ys' & Hys & [= <-])%bind_Ok). constructor; [done|]. by apply IH.
    + intros (y & ys' & Hy & Hys & ->)%Forall2_cons_inv_l.
      exists y. split; [done|]. apply bind_Ok. exists ys'. split; [by apply IH|done].
Qed.

Lemma comprehension_total {A B} (f : A → res B) xs :
  (∀ x, x ∈ xs → ∃ y, f x = Ok y) → ∃ ys, comprehension f xs = Ok ys.
Proof.
  induction xs as [|x xs IH]; intros Hf; simpl; [by eexists|].
  destruct (Hf x) as [y ->]; [by left|].
  destruct IH as [ys ->]; [intros ??; apply Hf; by right|]. by eexists.
Qed.

Lemma foldl_max_spec (x : Z) (rest : list Z) :
  foldl Z.max x rest ∈ x :: rest ∧ Forall (λ y, y ≤ foldl Z.max x rest)%Z (x :: rest).
Proof.
  revert x. induction rest as [|y rest IH]; intros x; simpl.
  - split; [by left|]. by repeat constructor.
  - destruct (IH (Z.max x y)) as [Hin Hall].
    apply Forall_cons in Hall as [Hhd Htl]. split.
    + apply elem_of_cons in Hin as [Hin|Hin]; [|by do 2 right].
      rewrite Hin. destruct (Z.max_spec x y) as [[_ ->]|[_ ->]]; [right; by left|by left].
    + repeat constructor; [lia..|done].
Qed.

Lemma py_max_Ok (xs : list Z) (m : Z) :
  py_max xs = Ok m → m ∈ xs ∧ Forall (λ y, y ≤ m)%Z xs.
Proof.
  destruct xs as [|x rest]; simpl; [done|]. intros [= <-]. apply foldl_max_spec.
Qed.

Lemma py_max_total (xs : list Z) : 0 < length xs → ∃ m, py_max xs = Ok m.
Proof. destruct xs; simpl; [lia|]. by eexists. Qed.

(** ** The priority order *)

Lemma insert_by_key_perm {A} (kx : Z * A) l : insert_by_key kx l ≡ₚ kx :: l.
Proof.
  induction l as [|ky l IH]; simpl; [done|].
  case_decide; [done|]. by rewrite IH, Permutation_swap.
Qed.

Lemma sort_by_key_perm {A} (l : list (Z * A)) : sort_by_key l ≡ₚ l.
Proof.
  induction l as [|kx l IH]; simpl; [done|].
  by rewrite insert_by_key_perm, IH.
Qed.

Lemma key_before_trans kx ky kz :
  key_before kx ky → key_before ky kz → key_before kx kz.
Proof. unfold key_before. lia. Qed.

Lemma insert_by_key_sorted (kx : Z * nat) l :
  StronglySorted key_before l → Forall (λ ky, kx.2 < ky.2) l →
  StronglySorted key_before (insert_by_key kx l).
Proof.
  induction l as [|ky l IH]; intros Hsorted Hidx; simpl.
  - by repeat constructor.
  - apply StronglySorted_inv in Hsorted as [Hl Hky].
    apply Forall_cons in Hidx as [Hxy Hidx].
    case_decide as Hle.
    + assert (key_before kx ky) by (unfold key_before; lia).
      constructor; [by constructor|]. constructor; [done|].
      eapply Forall_impl; [exact Hky|]. intros kz ?. by apply (key_before_trans kx ky kz).
    + constructor; [by apply IH|].
      rewrite insert_by_key_perm. constructor; [|done]. unfold key_before. lia.
Qed.

Lemma sort_by_key_sorted (l : list (Z * nat)) :
  StronglySorted (λ kx ky, kx.2 < ky.2) l →
  StronglySorted key_before (sort_by_key l).
Proof.
  induction l as [|kx l IH]; intros Hl; simpl; [constructor|].
  apply StronglySorted_inv in Hl as [Hl Hkx].
  apply insert_by_key_sorted; [by apply IH|]. by rewrite sort_by_key_perm.
Qed.

Lemma sorted_Ok_perm {A} (xs : list A) key l :
  sorted xs key = Ok l → l ≡ₚ xs.
Proof.
  unfold sorted. intros (keys & Hkeys%comprehension_Ok & [= <-])%bind_Ok.
  rewrite sort_by_key_perm. apply Forall2_length in Hkeys.
  rewrite snd_zip by lia. done.
Qed.

Lemma StronglySorted_seq (k n : nat) : StronglySorted lt (seq k n).
Proof.
  revert k. induction n as [|n IH]; intros k; simpl; constructor; [apply IH|].
  apply Forall_forall. intros j Hj%elem_of_seq. lia.
Qed.

Lemma sorted_tasks_Ok (task_priorities : gmap nat Z) (n : nat) :
  defined_on task_priorities n →
  ∃ sorted_tasks,
    sorted (seq 0 n) (getitem task_priorities) = Ok sorted_tasks ∧
    sorted_tasks ≡ₚ seq 0 n ∧
    StronglySorted (task_before task_priorities) sorted_tasks.
Proof.
  intros Hdef. unfold sorted.
  destruct (comprehension_total (getitem task_priorities) (seq 0 n)) as [keys Hkeys].
  { intros i Hi%elem_of_seq. destruct (Hdef i) as [p Hp]; [lia|].
    exists p. unfold getitem. by rewrite Hp. }
  rewrite Hkeys. simpl. eexists. split; [done|].
  apply comprehension_Ok in Hkeys. apply Forall2_length in Hkeys as Hlen.
  split. { rewrite sort_by_key_perm, snd_zip by lia. done. }
  assert (Forall (λ kx, task_priorities !! kx.2 = Some kx.1)
                 (sort_by_key (zip keys (seq 0 n)))) as Hprio.
  { rewrite sort_by_key_perm. clear Hlen. generalize dependent (seq 0 n).
    intros xs Hkeys. induction Hkeys as [|x k xs ks Hk _ IH]; simpl; constructor; [|done].
    simpl. unfold getitem in Hk. by destruct (task_priorities !! x) as [p|]; simplify_eq. }
  assert (StronglySorted key_before (sort_by_key (zip keys (seq 0 n)))) as Hsorted.
  { apply sort_by_key_sorted.
    assert (StronglySorted lt (seq 0 n)) as Hseq by apply StronglySorted_seq.
    clear Hprio Hlen. generalize dependent (seq 0 n). intros xs Hkeys.
    induction Hkeys as [|x k xs ks _ Hkeys IH]; intros Hxs; simpl; [constructor|].
    apply StronglySorted_inv in Hxs as [Hxs Hx]. constructor; [by apply IH|].
    apply Forall_forall. intros [k' x'] Hin%elem_of_zip_r.
    simpl. by eapply Forall_forall in Hx. }
  induction Hsorted as [|kx l Hl IH Hkx]; simpl; [constructor|].
  apply Forall_cons in Hprio as [Hpx Hprio]. constructor; [by apply IH|].
  apply Forall_fmap, Forall_forall. intros ky Hky. simpl.
  exists kx.1, ky.1. split; [done|]. split; [by eapply Forall_forall in Hprio|].
  by eapply Forall_forall in Hkx.
Qed.

(** ** The start-time loop *)

Lemma start_times_init_lookup (n i : nat) :
  i < n → start_times_init n !! i = Some 0%Z.
Proof.
  unfold start_times_init. induction n as [|n IH]; intros Hi; [lia|].
  rewrite seq_S, foldl_app. simpl. destruct (decide (n = i)) as [->|Hne].
  - by rewrite lookup_insert_eq.
  - rewrite lookup_insert_ne by done. apply IH. lia.
Qed.

Section StartTimes.
Variable adj_matrix : matrix.
Variable n : nat.
Variable task_duration : gmap nat Z.
Hypothesis Hsquare : square adj_matrix n.
Hypothesis Hduration : defined_on task_duration n.

Lemma start_task_Ok (start_times : gmap nat Z) (t : nat) :
  t < n → defined_on start_times n →
  ∃ start_times',
    start_task adj_matrix task_duration start_times t = Ok start_times' ∧
    defined_on start_times' n ∧
    (∀ d, d ≠ t → start_times' !! d = start_times !! d) ∧
    ((∀ d, ¬ edge adj_matrix t d) → start_times' = start_times) ∧
    ((∃ d, edge adj_matrix t d) →
       ∃ m, start_times' !! t = Some m ∧
            latest_end adj_matrix task_duration
                       (λ d, default 0%Z (start_times !! d)) t m).
Proof.
  intros Ht Hst. destruct Hsquare as [Hrows Hcols].
  destruct (lookup_lt_is_Some_2 adj_matrix t) as [row Hrow]; [lia|].
  assert (length row = n) as Hrowlen
    by (apply Hcols; by eapply list_elem_of_lookup_2).
  unfold start_task, subscript. rewrite Hrow. simpl.
  pose proof (edge_lookup adj_matrix t) as Hedge.
  case_decide as Hdeps.
  - set (end_of := λ dep, s ← getitem start_times dep;
                          d ← getitem task_duration dep; Ok (s + d)%Z).
    assert (∀ dep, dep ∈ np_where_eq_1 row → ∃ s du,
              start_times !! dep = Some s ∧ task_duration !! dep = Some du ∧
              end_of dep = Ok (s + du)%Z) as Hend.
    { intros dep Hdep%np_where_eq_1_lt.
      destruct (Hst dep) as [s Hs]; [lia|].
      destruct (Hduration dep) as [du Hdu]; [lia|].
      exists s, du. unfold end_of, getitem. by rewrite Hs, Hdu. }
    destruct (comprehension_total end_of (np_where_eq_1 row)) as [ends Hends].
    { intros dep Hdep. destruct (Hend dep Hdep) as (s & du & _ & _ & ?). eauto. }
    rewrite Hends. simpl. apply comprehension_Ok in Hends.
    destruct (py_max_total ends) as [m Hm].
    { by rewrite <- (Forall2_length _ _ _ Hends). }
    rewrite Hm. simpl. eexists. split; [done|]. split.
    { intros i Hi. destruct (decide (t = i)) as [->|Hne].
      - rewrite lookup_insert_eq. by eexists.
      - rewrite lookup_insert_ne by done. by apply Hst. }
    split; [by intros d Hd; rewrite lookup_insert_ne|]. split.
    { intros Hnone. destruct (np_where_eq_1 row) as [|d ?] eqn:Hnil; [simpl in Hdeps; lia|].
      destruct (Hnone d). apply (Hedge d row Hrow). rewrite Hnil. by left. }
    intros _. exists m. split; [by rewrite lookup_insert_eq|].
    apply py_max_Ok in Hm as [Hin Hmax]. split.
    + apply list_elem_of_lookup_1 in Hin as [i Hi].
      destruct (Forall2_lookup_r _ _ _ _ _ Hends Hi) as (dep & Hdep & Hdepend).
      apply list_elem_of_lookup_2 in Hdep.
      destruct (Hend dep Hdep) as (s & du & Hs & Hdu & Heq).
      exists dep, du. split; [by apply (Hedge dep row Hrow)|]. split; [done|].
      rewrite Hs. simpl. congruence.
    + intros d Hd%(Hedge d row Hrow).
      destruct (Hend d Hd) as (s & du & Hs & Hdu & Heq).
      exists du. split; [done|]. rewrite Hs. simpl.
      apply list_elem_of_lookup_1 in Hd as [i Hi].
      destruct (Forall2_lookup_l _ _ _ _ _ Hends Hi) as (e & He & Hde).
      rewrite Forall_forall in Hmax. specialize (Hmax e (list_elem_of_lookup_2 _ _ _ He)).
      assert (e = (s + du)%Z) by congruence. lia.
  - eexists. split; [done|]. split; [done|]. split; [done|]. split; [done|].
    intros [d Hd%(Hedge d row Hrow)].
    destruct (np_where_eq_1 row); [by apply elem_of_nil in Hd|simpl in Hdeps; lia].
Qed.

Lemma latest_end_ext cur cur' t m :
  (∀ d, edge adj_matrix t d → cur' d = cur d) →
  latest_end adj_matrix task_duration cur t m →
  latest_end adj_matrix task_duration cur' t m.
Proof.
  intros Hcur [(d & du & Hd & Hdu & ->) Hmax]. split.
  - exists d, du. by rewrite Hcur.
  - intros d' Hd'. rewrite Hcur by done. by apply Hmax.
Qed.

Lemma start_times_upto_step visited start_times t :
  t < n → t ∉ visited →
  start_times_upto adj_matrix n task_duration visited start_times →
  ∃ start_times',
    start_task adj_matrix task_duration start_times t = Ok start_times' ∧
    start_times_upto adj_matrix n task_duration (visited ++ [t]) start_times'.
Proof.
  intros Ht Hfresh (Hdef & Hzero & Hrule).
  destruct (start_task_Ok start_times t Ht Hdef)
    as (st' & Hrun & Hdef' & Hother & Hnone & Hsome).
  exists st'. split; [done|]. split; [done|]. split.
  - intros d Hd Hnot. apply not_elem_of_app in Hnot as [Hnot Hne].
    rewrite Hother by (intros ->; apply Hne; by left). by apply Hzero.
  - intros k t' Hk. destruct (decide (k < length visited)) as [Hlt|Hge].
    + rewrite lookup_app_l in Hk by done.
      assert (t' ≠ t) as Hne
        by (intros ->; apply Hfresh; by eapply list_elem_of_lookup_2).
      destruct (Hrule k t' Hk) as [Hr0 Hr1].
      assert (∀ d, current_start (take k (visited ++ [t])) st' d =
                   current_start (take k visited) start_times d) as Hcur.
      { intros d. rewrite take_app_le by lia. unfold current_start.
        case_decide as Hin; [|done]. rewrite Hother; [done|].
        intros ->. apply Hfresh. by eapply subseteq_take. }
      split; rewrite Hother by done; [done|].
      intros He. destruct (Hr1 He) as (m & Hm & Hlatest).
      exists m. split; [done|]. eapply latest_end_ext; [|done]. by intros.
    + apply lookup_lt_Some in Hk as Hlen. rewrite length_app in Hlen. simpl in Hlen.
      assert (k = length visited) as -> by lia.
      rewrite list_lookup_middle in Hk by done. injection Hk as <-.
      split.
      * intros He. rewrite Hnone by done. by apply Hzero.
      * intros He. destruct (Hsome He) as (m & Hm & Hlatest).
        exists m. split; [done|]. eapply latest_end_ext; [|done].
        intros d Hd. rewrite take_app_length. unfold current_start.
        destruct (edge_lt _ _ _ _ Hsquare Hd) as [_ Hdn].
        case_decide as Hin.
        -- rewrite Hother; [done|]. intros ->. done.
        -- by rewrite Hzero.
Qed.

Lemma compute_start_times_Ok (sorted_tasks : list nat) :
  NoDup sorted_tasks → (∀ t, t ∈ sorted_tasks → t < n) →
  ∃ start_times,
    compute_start_times adj_matrix task_duration sorted_tasks n = Ok start_times ∧
    start_times_upto adj_matrix n task_duration sorted_tasks start_times.
Proof.
  unfold compute_start_times.
  induction sorted_tasks as [|t visited IH] using rev_ind; intros Hnodup Hlt.
  - exists (start_times_init n). split; [done|]. split; [|split].
    + intros i Hi. rewrite start_times_init_lookup by done. by eexists.
    + intros d Hd _. by apply start_times_init_lookup.
    + intros k t Hk. by rewrite lookup_nil in Hk.
  - apply NoDup_app in Hnodup as (Hnodup & Hfresh & _).
    destruct IH as (st & Hrun & Hinv); [done|intros ??; apply Hlt; set_solver|].
    destruct (start_times_upto_step visited st t) as (st' & Hstep & Hinv').
    { apply Hlt. set_solver. }
    { intros Hin. apply (Hfresh t Hin). by left. }
    { done. }
    exists st'. split; [|done]. by rewrite for_each_snoc, Hrun.
Qed.
End StartTimes.

(** ** Gantt rows and the overdue list *)

Lemma StronglySorted_lookup_lt {A} (R : relation A) l p q x y :
  StronglySorted R l → p < q → l !! p = Some x → l !! q = Some y → R x y.
Proof.
  intros Hl. revert p q. induction Hl as [|z l Hl IH Hz]; intros p q Hpq Hp Hq.
  - by rewrite lookup_nil in Hp.
  - destruct q as [|q]; [lia|]. simpl in Hq. destruct p as [|p]; simpl in Hp.
    + injection Hp as ->. eapply Forall_forall in Hz; [done|].
      by eapply list_elem_of_lookup_2.
    + apply (IH p q); [lia|done..].
Qed.

Lemma task_label_inj : Inj (=) (=) task_label.
Proof.
  intros t t' Heq. unfold task_label in Heq.
  apply (inj (String.app "Task ")) in Heq. apply (inj pretty) in Heq. lia.
Qed.

Lemma gantt_entry_Ok desc st dur colors t row :
  gantt_entry desc st dur colors t = Ok row →
  ∃ description start duration color,
    desc !! t = Some description ∧ st !! t = Some start ∧
    dur !! t = Some duration ∧ colors !! t = Some color ∧
    row = {| Task := description; Start := start;
             Finish := (start + duration)%Z;
             Resource := "Resource " +:+ pretty (color + 1)%Z |}.
Proof.
  unfold gantt_entry, getitem, subscript. intros Hrow.
  destruct (desc !! t) as [description|]; simpl in Hrow; [|done].
  destruct (st !! t) as [start|]; simpl in Hrow; [|done].
  destruct (dur !! t) as [duration|]; simpl in Hrow; [|done].
  destruct (colors !! t) as [color|]; simpl in Hrow; [|done].
  injection Hrow as <-. by exists description, start, duration, color.
Qed.

Lemma gantt_entry_total desc st dur colors n t :
  defined_on desc n → defined_on st n → defined_on dur n → length colors = n →
  t < n → ∃ row, gantt_entry desc st dur colors t = Ok row.
Proof.
  intros Hdesc Hst Hdur Hcolors Ht.
  destruct (Hdesc t Ht) as [description Hd]. destruct (Hst t Ht) as [start Hs].
  destruct (Hdur t Ht) as [duration Hdu].
  destruct (lookup_lt_is_Some_2 colors t) as [color Hc]; [lia|].
  unfold gantt_entry, getitem, subscript. rewrite Hd, Hs, Hdu, Hc. by eexists.
Qed.

Lemma gantt_entry_times desc1 desc2 st dur colors1 colors2 t :
  is_Some (desc1 !! t) → is_Some (desc2 !! t) →
  is_Some (colors1 !! t) → is_Some (colors2 !! t) →
  times <$> gantt_entry desc1 st dur colors1 t =
  times <$> gantt_entry desc2 st dur colors2 t.
Proof.
  intros [d1 Hd1] [d2 Hd2] [c1 Hc1] [c2 Hc2].
  unfold gantt_entry, getitem, subscript. rewrite Hd1, Hd2, Hc1, Hc2. simpl.
  destruct (st !! t); simpl; [|done]. by destruct (dur !! t).
Qed.

Lemma gantt_data_times desc1 desc2 st dur colors1 colors2 (tasks : list nat) :
  (∀ t, t ∈ tasks → is_Some (desc1 !! t) ∧ is_Some (desc2 !! t) ∧
                    is_Some (colors1 !! t) ∧ is_Some (colors2 !! t)) →
  fmap (M := list) times <$> comprehension (gantt_entry desc1 st dur colors1) tasks =
  fmap (M := list) times <$> comprehension (gantt_entry desc2 st dur colors2) tasks.
Proof.
  induction tasks as [|t tasks IH]; intros Hdef; simpl; [done|].
  destruct (Hdef t) as (Hd1 & Hd2 & Hc1 & Hc2); [by left|].
  pose proof (gantt_entry_times desc1 desc2 st dur colors1 colors2 t Hd1 Hd2 Hc1 Hc2)
    as Hhd.
  specialize (IH (λ t' Ht', Hdef t' (list_elem_of_further _ _ _ Ht'))).
  destruct (gantt_entry desc1 st dur colors1 t) as [row1|e1],
           (gantt_entry desc2 st dur colors2 t) as [row2|e2];
    simpl in Hhd; try discriminate Hhd; simpl.
  - assert (times row1 = times row2) as Htimes by congruence. clear Hhd.
    destruct (comprehension (gantt_entry desc1 st dur colors1) tasks) as [rows1|],
             (comprehension (gantt_entry desc2 st dur colors2) tasks) as [rows2|];
      simpl in IH; try discriminate IH; simpl.
    + injection IH as IH. f_equal. f_equal; [exact Htimes|exact IH].
    + by injection IH as ->.
  - by injection Hhd as ->.
Qed.

Lemma overdue_tasks_Ok st dur dl n (tasks : list nat) :
  defined_on st n → defined_on dur n → defined_on dl n →
  (∀ t, t ∈ tasks → t < n) →
  ∃ overdue, overdue_tasks st dur dl tasks = Ok overdue ∧
    overdue `sublist_of` (task_label <$> tasks) ∧
    ∀ t, task_label t ∈ overdue ↔ t ∈ tasks ∧ finish_after_deadline st dur dl t.
Proof.
  intros Hst Hdur Hdl. induction tasks as [|t tasks IH]; intros Hlt; simpl.
  - exists []. split; [done|]. split; [done|]. intros t. split.
    + by intros ?%elem_of_nil.
    + by intros [?%elem_of_nil _].
  - destruct IH as (more & -> & Hsub & Hmore); [intros ??; apply Hlt; by right|].
    assert (t < n) as Ht by (apply Hlt; by left).
    destruct (Hst t Ht) as [start Hs]. destruct (Hdur t Ht) as [duration Hdu].
    destruct (Hdl t Ht) as [deadline Hd].
    unfold getitem. rewrite Hs, Hdu, Hd. simpl. eexists. split; [done|].
    case_decide as Hlate.
    + split; [by apply sublist_skip|]. intros t'.
      rewrite elem_of_cons, Hmore, elem_of_cons. split.
      * intros [->%task_label_inj|[??]]; [|by auto].
        split; [by left|]. by exists start, duration, deadline.
      * intros [[->|?] ?]; [by left|by right].
    + split; [by apply sublist_cons|]. intros t'.
      rewrite Hmore, elem_of_cons. split; [by intros [??]; auto|].
      intros [[->|?] Hover]; [|done].
      destruct Hover as (? & ? & ? & ? & ? & ? & ?). simplify_eq. lia.
Qed.

Lemma overdue_tasks_after_gantt desc st dur dl colors (tasks : list nat) rows :
  Forall2 (λ t row, gantt_entry desc st dur colors t = Ok row) tasks rows →
  (∀ t, t ∈ tasks → is_Some (dl !! t)) →
  ∃ overdue, overdue_tasks st dur dl tasks = Ok overdue.
Proof.
  induction 1 as [|t row tasks rows Hrow _ IH]; intros Hdl; simpl; [by eexists|].
  apply gantt_entry_Ok in Hrow as (? & start & duration & ? & _ & Hs & Hd & _).
  destruct (Hdl t) as [deadline Hdeadline]; [by left|].
  destruct IH as [more ->]; [intros ??; apply Hdl; by right|].
  unfold getitem. rewrite Hs, Hd, Hdeadline. by eexists.
Qed.

(** ** [schedule] succeeds on well-formed input *)

Lemma schedule_Ok adj_matrix n dur dl prio desc colors :
  well_formed adj_matrix n dur dl prio desc colors →
  ∃ order st gantt overdue,
    schedule adj_matrix n dur dl prio desc colors = Ok (order, st, gantt, overdue) ∧
    (order ≡ₚ seq 0 n ∧ StronglySorted (task_before prio) order) ∧
    start_times_upto adj_matrix n dur order st ∧
    Forall2 (λ t row, gantt_entry desc st dur colors t = Ok row) order gantt ∧
    (overdue `sublist_of` (task_label <$> order) ∧
     ∀ t, task_label t ∈ overdue ↔ t < n ∧ finish_after_deadline st dur dl t).
Proof.
  intros (Hsq & Hdur & Hdl & Hprio & Hdesc & Hcolors). unfold schedule.
  destruct (sorted_tasks_Ok prio n Hprio) as (order & -> & Hperm & Hsorted). simpl.
  assert (∀ t, t ∈ order ↔ t < n) as Hin.
  { intros t. rewrite Hperm, elem_of_seq. lia. }
  destruct (compute_start_times_Ok adj_matrix n dur Hsq Hdur order)
    as (st & -> & Hst).
  { rewrite Hperm. apply NoDup_seq. }
  { intros t. apply Hin. }
  simpl. destruct Hst as (Hdef & Hst).
  destruct (comprehension_total (gantt_entry desc st dur colors) order)
    as [gantt Hgantt].
  { intros t Ht%Hin. by eapply gantt_entry_total. }
  rewrite Hgantt. simpl.
  destruct (overdue_tasks_Ok st dur dl n order Hdef Hdur Hdl)
    as (overdue & -> & Hsub & Hover); [intros t; apply Hin|].
  simpl. exists order, st, gantt, overdue. split; [done|]. split; [done|].
  split; [done|]. split; [by apply comprehension_Ok|]. split; [done|].
  intros t. by rewrite Hover, Hin.
Qed.

(** ** Tactics and facts for the concrete inputs *)

Ltac concrete_defined_on :=
  let i := fresh "i" in
  intros i ?; repeat (destruct i as [|i]; [by eexists|]); lia.

Ltac concrete_square :=
  let Hrow := fresh "Hrow" in
  split; [reflexivity|];
  intros ? Hrow;
  repeat (apply elem_of_cons in Hrow as [->|Hrow]; [reflexivity|]);
  by apply elem_of_nil in Hrow.

Ltac concrete_well_formed :=
  split; [concrete_square|]; repeat (split; [concrete_defined_on|]); reflexivity.

Lemma scenario3_run dl desc colors order st gantt overdue :
  schedule scenario3_adj 2 scenario3_duration dl scenario3_priorities desc colors
    = Ok (order, st, gantt, overdue) →
  order = [0; 1] ∧ st !! 0 = Some 2%Z ∧ st !! 1 = Some 4%Z ∧
  Forall2 (λ t row, gantt_entry desc st scenario3_duration colors t = Ok row)
          order gantt.
Proof.
  unfold schedule. intros (order' & Horder & Hrun)%bind_Ok.
  vm_compute in Horder. injection Horder as <-.
  apply bind_Ok in Hrun as (st' & Hst & Hrun).
  apply bind_Ok in Hrun as (gantt' & Hgantt & Hrun).
  apply bind_Ok in Hrun as (overdue' & _ & Hrun).
  injection Hrun as <- <- <- <-.
  split; [done|]. apply comprehension_Ok in Hgantt.
  vm_compute in Hst. injection Hst as <-. done.
Qed.

(** * The claims *)

(** ** Colouring *)

(** C1. Proper colouring: on every square adjacency matrix that is symmetric
    with a zero diagonal, of any size (in particular 1 to 100 nodes, whatever
    the density), [greedy_coloring] returns one colour per node and the two
    ends of every edge get different colours. *)
Theorem greedy_coloring_proper (adj_matrix : matrix) (n : nat) :
  square adj_matrix n → symmetric adj_matrix → zero_diagonal adj_matrix →
  ∃ colors, greedy_coloring adj_matrix = Ok colors ∧ length colors = n ∧
    ∀ i j, edge adj_matrix i j →
      ∃ ci cj, colors !! i = Some ci ∧ colors !! j = Some cj ∧ ci ≠ cj.
Proof.
  intros Hsq Hsym Hdiag.
  destruct (greedy_coloring_Ok adj_matrix n Hsq) as (colors & Hrun & Hlen & _ & Hdone).
  exists colors. split; [done|]. split; [done|]. intros i j Hedge.
  destruct (edge_lt _ _ _ _ Hsq Hedge) as [Hi Hj].
  destruct (lookup_lt_is_Some_2 adj_matrix i) as [rowi Hrowi]; [destruct Hsq; lia|].
  destruct (lookup_lt_is_Some_2 adj_matrix j) as [rowj Hrowj]; [destruct Hsq; lia|].
  destruct (Hdone i rowi Hi Hrowi) as (ci & Hci & (_ & Hfreei & _) & _).
  destruct (Hdone j rowj Hj Hrowj) as (cj & Hcj & (_ & Hfreej & _) & _).
  exists ci, cj. split; [done|]. split; [done|]. intros ->.
  destruct (Nat.lt_total i j) as [Hlt|[->|Hlt]].
  - apply (Hfreej i Hlt); [|done]. unfold edge. by rewrite <- Hsym.
  - unfold edge in Hedge. rewrite Hdiag in Hedge by (destruct Hsq; lia). done.
  - by apply (Hfreei j Hlt).
Qed.

Lemma greedy_coloring_proper_witness :
  ∃ colors, greedy_coloring path3 = Ok colors ∧ length colors = 3 ∧
    ∀ i j, edge path3 i j →
      ∃ ci cj, colors !! i = Some ci ∧ colors !! j = Some cj ∧ ci ≠ cj.
Proof.
  apply (greedy_coloring_proper path3 3).
  - concrete_square.
  - intros i j.
    do 3 (destruct i as [|i]; [do 3 (destruct j as [|j]; [reflexivity|]); reflexivity|]).
    do 3 (destruct j as [|j]; [reflexivity|]); reflexivity.
  - intros i Hi. do 3 (destruct i as [|i]; [reflexivity|]). simpl in Hi. lia.
Defined.

(** C2. The greedy rule: on every square matrix [greedy_coloring] returns, and
    the colour of each node [i] is the smallest non-negative integer that is
    not the colour of a neighbour with a smaller index, the neighbours with a
    larger index counting for nothing; on the path 0 - 1 - 2 the result is
    0, 1, 0. *)
Theorem greedy_coloring_smallest_free :
  (∀ (adj_matrix : matrix) (n : nat),
     square adj_matrix n →
     ∃ colors, greedy_coloring adj_matrix = Ok colors ∧ length colors = n ∧
       ∀ i, i < n →
         ∃ c, colors !! i = Some c ∧ smallest_free adj_matrix colors i c) ∧
  greedy_coloring [[0;1;0];[1;0;1];[0;1;0]]%Z = Ok [0;1;0]%Z.
Proof.
  split; [|by vm_compute].
  intros adj_matrix n Hsq.
  destruct (greedy_coloring_Ok adj_matrix n Hsq) as (colors & Hrun & Hlen & _ & Hdone).
  exists colors. split; [done|]. split; [done|]. intros i Hi.
  destruct (lookup_lt_is_Some_2 adj_matrix i) as [row Hrow]; [destruct Hsq; lia|].
  destruct (Hdone i row Hi Hrow) as (c & Hc & Hsmall & _). eauto.
Qed.

Lemma greedy_coloring_smallest_free_witness :
  ∃ colors, greedy_coloring path3 = Ok colors ∧ length colors = 3 ∧
    ∀ i, i < 3 → ∃ c, colors !! i = Some c ∧ smallest_free path3 colors i c.
Proof. apply (proj1 greedy_coloring_smallest_free path3 3). concrete_square. Defined.

(** C6. Colour bound: on every square matrix (symmetric with zero diagonal or
    not) every colour that [greedy_coloring] assigns lies between 0 and the
    largest number of neighbours of a node. *)
Theorem greedy_coloring_color_bound (adj_matrix : matrix) (n : nat) :
  square adj_matrix n →
  ∃ colors, greedy_coloring adj_matrix = Ok colors ∧ length colors = n ∧
    ∀ c, c ∈ colors → (0 ≤ c ≤ Z.of_nat (max_degree adj_matrix))%Z.
Proof.
  intros Hsq.
  destruct (greedy_coloring_Ok adj_matrix n Hsq) as (colors & Hrun & Hlen & _ & Hdone).
  exists colors. split; [done|]. split; [done|].
  intros c (i & Hi)%list_elem_of_lookup_1. apply lookup_lt_Some in Hi as Hlt.
  destruct (lookup_lt_is_Some_2 adj_matrix i) as [row Hrow]; [destruct Hsq; lia|].
  destruct (Hdone i row ltac:(lia) Hrow) as (c' & Hc' & (Hc0 & _) & Hdeg).
  assert (c' = c) as -> by congruence.
  apply degree_le_max_degree in Hrow. lia.
Qed.

Lemma greedy_coloring_color_bound_witness :
  ∃ colors, greedy_coloring path3 = Ok colors ∧ length colors = 3 ∧
    ∀ c, c ∈ colors → (0 ≤ c ≤ Z.of_nat (max_degree path3))%Z.
Proof. apply (greedy_coloring_color_bound path3 3). concrete_square. Defined.

(** C10. The diagonal is irrelevant: for every matrix, replacing the diagonal
    entries by 0 does not change what [greedy_coloring] returns (or raises),
    since the colour of a node is still -1 when its own row is scanned. *)
Theorem greedy_coloring_clear_diagonal (adj_matrix : matrix) :
  greedy_coloring (clear_diagonal adj_matrix) = greedy_coloring adj_matrix.
Proof.
  unfold greedy_coloring. unfold clear_diagonal at 2 3. rewrite length_imap.
  apply for_each_color_clear_diagonal.
  intros j Hj. apply lookup_replicate_2. lia.
Qed.

(** C8. The colouring function does not reject a graph without nodes: on
    the matrix without rows [greedy_coloring] raises nothing and returns the
    empty list of colours. *)
Lemma greedy_coloring_empty_matrix :
  greedy_coloring [] = Ok [] ∧ ¬ ∃ e, greedy_coloring [] = Raise e.
Proof. split; [done|]. by intros [e He]. Qed.

(** C8, as amended: the check of the node count is made by [generate_graph],
    which for [n_nodes < 1] shows the error and returns [(None, None)];
    [main] then shows that the generation failed and does not call
    [greedy_coloring], so no colours are assigned.  [greedy_coloring] itself
    has no check and colours the matrix without rows with the empty list. *)
Theorem invalid_node_count {Graph Prob : Type}
    (prob_lt_0 prob_gt_1 : Prob → bool)
    (fast_gnp_random_graph : Z → Prob → Graph)
    (to_numpy_array : Graph → matrix)
    (n_nodes : Z) (prob : Prob) :
  (n_nodes < 1)%Z →
  generate_graph prob_lt_0 prob_gt_1 fast_gnp_random_graph to_numpy_array
                 n_nodes prob = ([NodesAtLeastOne], (None, None)) ∧
  main_coloring prob_lt_0 prob_gt_1 fast_gnp_random_graph to_numpy_array
                n_nodes prob = ([NodesAtLeastOne; FailedToGenerate], None) ∧
  greedy_coloring [] = Ok [].
Proof.
  intros Hn. unfold main_coloring, generate_graph. by rewrite decide_True.
Qed.

Lemma invalid_node_count_witness :
  generate_graph (λ _ : unit, false) (λ _, false) (λ _ _, ()) (λ _, []) 0 ()
    = ([NodesAtLeastOne], (None, None)) ∧
  main_coloring (λ _ : unit, false) (λ _, false) (λ _ _, ()) (λ _, []) 0 ()
    = ([NodesAtLeastOne; FailedToGenerate], None) ∧
  greedy_coloring [] = Ok [].
Proof. apply invalid_node_count. lia. Defined.

(** ** Scheduling *)

(** C7. Stability of the priority order: on well-formed input the order in
    which [schedule] lists the tasks is a permutation of [0..n-1] sorted by
    priority value and, for equal values, by index; the Gantt rows are
    produced in that order; and of two tasks with the same priority the one
    with the smaller index comes first. *)
Theorem priority_order_stable adj_matrix n dur dl prio desc colors :
  well_formed adj_matrix n dur dl prio desc colors →
  ∃ order st gantt overdue,
    schedule adj_matrix n dur dl prio desc colors = Ok (order, st, gantt, overdue) ∧
    order ≡ₚ seq 0 n ∧ StronglySorted (task_before prio) order ∧
    Forall2 (λ t row, gantt_entry desc st dur colors t = Ok row) order gantt ∧
    ∀ i j, i < j < n → prio !! i = prio !! j →
           ∃ p q, p < q ∧ order !! p = Some i ∧ order !! q = Some j.
Proof.
  intros Hwf.
  destruct (schedule_Ok _ _ _ _ _ _ _ Hwf)
    as (order & st & gantt & overdue & Hrun & [Hperm Hsorted] & _ & Hrows & _).
  exists order, st, gantt, overdue. do 4 (split; [done|]).
  intros i j Hij Hsame.
  assert (i ∈ order) as [p Hp]%list_elem_of_lookup_1
    by (rewrite Hperm, elem_of_seq; lia).
  assert (j ∈ order) as [q Hq]%list_elem_of_lookup_1
    by (rewrite Hperm, elem_of_seq; lia).
  exists p, q. split; [|done].
  destruct (Nat.lt_total p q) as [Hlt|[->|Hgt]]; [done| |].
  - assert (i = j) by congruence. lia.
  - destruct (StronglySorted_lookup_lt _ _ _ _ _ _ Hsorted Hgt Hq Hp)
      as (pj & pi_ & Hpj & Hpi & Hbefore).
    assert (pj = pi_) by congruence. lia.
Qed.

Lemma priority_order_stable_witness :
  ∃ order st gantt overdue,
    schedule scenario3_adj 2 scenario3_duration default_deadlines
             default_priorities default_descriptions [0; 1]%Z
      = Ok (order, st, gantt, overdue) ∧
    order ≡ₚ seq 0 2 ∧ StronglySorted (task_before default_priorities) order ∧
    Forall2 (λ t row, gantt_entry default_descriptions st scenario3_duration
                                  [0; 1]%Z t = Ok row) order gantt ∧
    ∀ i j, i < j < 2 → default_priorities !! i = default_priorities !! j →
           ∃ p q, p < q ∧ order !! p = Some i ∧ order !! q = Some j.
Proof. apply priority_order_stable. concrete_well_formed. Defined.

(** C3. Start-time rule: on well-formed input [schedule] visits the tasks in
    priority order; a task without neighbours keeps the start 0; a task [t]
    with neighbours, visited at position [k], gets as start the maximum over
    its neighbours [d] of the start of [d] current at that moment (its final
    start if [d] was visited before position [k], the initial 0 otherwise)
    plus the duration of [d]; and each row has finish = start + duration. *)
Theorem start_time_rule adj_matrix n dur dl prio desc colors :
  well_formed adj_matrix n dur dl prio desc colors →
  ∃ order st gantt overdue,
    schedule adj_matrix n dur dl prio desc colors = Ok (order, st, gantt, overdue) ∧
    (order ≡ₚ seq 0 n ∧ StronglySorted (task_before prio) order) ∧
    (∀ k t, order !! k = Some t → start_rule adj_matrix dur order st k t) ∧
    Forall2 (λ t row, ∃ start duration,
               st !! t = Some start ∧ dur !! t = Some duration ∧
               Start row = start ∧ Finish row = (start + duration)%Z)
            order gantt.
Proof.
  intros Hwf.
  destruct (schedule_Ok _ _ _ _ _ _ _ Hwf)
    as (order & st & gantt & overdue & Hrun & Horder & (_ & _ & Hrule) & Hrows & _).
  exists order, st, gantt, overdue. split; [done|]. split; [done|]. split; [done|].
  eapply Forall2_impl; [exact Hrows|]. simpl.
  intros t row (? & start & duration & ? & _ & Hs & Hd & _ & ->)%gantt_entry_Ok.
  by exists start, duration.
Qed.

Lemma start_time_rule_witness :
  ∃ order st gantt overdue,
    schedule scenario3_adj 2 scenario3_duration default_deadlines
             scenario3_priorities default_descriptions [0; 1]%Z
      = Ok (order, st, gantt, overdue) ∧
    (order ≡ₚ seq 0 2 ∧ StronglySorted (task_before scenario3_priorities) order) ∧
    (∀ k t, order !! k = Some t →
            start_rule scenario3_adj scenario3_duration order st k t) ∧
    Forall2 (λ t row, ∃ start duration,
               st !! t = Some start ∧ scenario3_duration !! t = Some duration ∧
               Start row = start ∧ Finish row = (start + duration)%Z)
            order gantt.
Proof. apply start_time_rule. concrete_well_formed. Defined.

(** C4. Start 2 for task 1 is not what the code computes in scenario 3:
    whatever the deadlines, descriptions and colours, no run of [schedule]
    ends with start 2 for task 1. *)
Lemma scenario3_start_not_2 :
  ¬ ∃ dl desc colors order st gantt overdue,
      schedule scenario3_adj 2 scenario3_duration dl scenario3_priorities desc colors
        = Ok (order, st, gantt, overdue) ∧
      st !! 1 = Some 2%Z.
Proof.
  intros (dl & desc & colors & order & st & gantt & overdue & Hrun & Hstart).
  apply scenario3_run in Hrun as (_ & _ & Hfour & _). congruence.
Qed.

(** C4, as amended: in scenario 3 task 0 is visited first and, task 1 being
    its neighbour with start still 0, gets start 0 + 2 = 2; task 1 then gets
    start(0) + duration(0) = 4 and finish 6. *)
Theorem scenario3_times dl desc colors :
  defined_on dl 2 → defined_on desc 2 → length colors = 2 →
  ∃ order st gantt overdue,
    schedule scenario3_adj 2 scenario3_duration dl scenario3_priorities desc colors
      = Ok (order, st, gantt, overdue) ∧
    order = [0; 1] ∧ st !! 0 = Some 2%Z ∧ st !! 1 = Some 4%Z ∧
    times <$> gantt = [(2, 4); (4, 6)]%Z.
Proof.
  intros Hdl Hdesc Hcolors.
  destruct (schedule_Ok scenario3_adj 2 scenario3_duration dl scenario3_priorities
              desc colors) as (order & st & gantt & overdue & Hrun & _).
  { split; [concrete_square|]. split; [concrete_defined_on|]. split; [done|].
    split; [concrete_defined_on|]. by split. }
  exists order, st, gantt, overdue. split; [done|].
  destruct (scenario3_run _ _ _ _ _ _ _ Hrun) as (-> & Hs0 & Hs1 & Hrows).
  split; [done|]. split; [done|]. split; [done|].
  apply Forall2_cons_inv_l in Hrows as (row0 & rest & Hrow0 & Hrows & ->).
  apply Forall2_cons_inv_l in Hrows as (row1 & rest' & Hrow1 & Hrows & ->).
  apply Forall2_nil_inv_l in Hrows as ->.
  apply gantt_entry_Ok in Hrow0 as (? & ? & ? & ? & _ & Hs0' & Hd0 & _ & ->).
  apply gantt_entry_Ok in Hrow1 as (? & ? & ? & ? & _ & Hs1' & Hd1 & _ & ->).
  vm_compute in Hd0, Hd1. simplify_eq. done.
Qed.

Lemma scenario3_times_witness :
  ∃ order st gantt overdue,
    schedule scenario3_adj 2 scenario3_duration default_deadlines
             scenario3_priorities default_descriptions [0; 1]%Z
      = Ok (order, st, gantt, overdue) ∧
    order = [0; 1] ∧ st !! 0 = Some 2%Z ∧ st !! 1 = Some 4%Z ∧
    times <$> gantt = [(2, 4); (4, 6)]%Z.
Proof. apply scenario3_times; [concrete_defined_on..|reflexivity]. Defined.

(** C5. The overdue list is lost when a colour has no display colour.  In
    scenario 3 with deadlines 3 and 3 the colours are 0 and 1 and both tasks
    finish late, at 4 and 6: the statements of lines 97-141 and 169 by
    themselves give the list "Task 1", "Task 2".  With one display colour the
    [try] block raises [KeyError] at the bar of task 1, whose colour 1 is not
    a key of the colour map (line 152 has not the modulo of line 94), and the
    overdue list is never built. *)
Theorem overdue_not_reported (cmap_hex : nat → nat → string) :
  greedy_coloring scenario3_adj = Ok [0; 1]%Z ∧
  (λ r, ((timeline r).1.2, (timeline r).2)) <$>
    schedule scenario3_adj 2 scenario3_duration early_deadlines
             scenario3_priorities default_descriptions [0; 1]%Z
    = Ok ([(2, 4); (4, 6)]%Z, ["Task 1"; "Task 2"]) ∧
  allocate cmap_hex 1 scenario3_adj 2 scenario3_duration early_deadlines
           scenario3_priorities default_descriptions = Raise KeyError.
Proof.
  split; [by vm_compute|]. split; [by vm_compute|].
  unfold allocate.
  assert (greedy_coloring scenario3_adj = Ok [0; 1]%Z) as -> by (by vm_compute).
  by vm_compute.
Qed.


(** * Further properties *)

(** ** Exceptions of the colouring *)

Lemma neighbor_colors_Raise (colors : list Z) (nbrs : list nat) e :
  neighbor_colors colors nbrs = Raise e →
  e = IndexError ∧ ∃ nb, nb ∈ nbrs ∧ length colors ≤ nb.
Proof.
  induction nbrs as [|nb nbrs IH]; simpl; [done|].
  unfold subscript at 1. destruct (colors !! nb) as [c|] eqn:Hc; simpl.
  - destruct (neighbor_colors colors nbrs) as [used|e'] eqn:Hrest; simpl; [done|].
    intros [= ->]. destruct IH as (-> & nb' & Hin & Hge); [done|].
    split; [done|]. exists nb'. split; [by right|done].
  - intros [= <-]. split; [done|]. exists nb. split; [by left|].
    by apply lookup_ge_None.
Qed.

Lemma neighbor_colors_Ok_inv (colors : list Z) (nbrs : list nat) used :
  neighbor_colors colors nbrs = Ok used → ∀ nb, nb ∈ nbrs → nb < length colors.
Proof.
  revert used. induction nbrs as [|nb nbrs IH]; intros used; simpl.
  - intros _ nb' Hin. by apply elem_of_nil in Hin.
  - unfold subscript at 1. destruct (colors !! nb) as [c|] eqn:Hc; simpl; [|done].
    destruct (neighbor_colors colors nbrs) as [used'|] eqn:Hrest; simpl; [|done].
    intros _ nb' [->|Hin]%elem_of_cons; [by eapply lookup_lt_Some|by eapply IH].
Qed.

Lemma color_node_Raise adj_matrix colors node e :
  color_node adj_matrix colors node = Raise e → e = IndexError.
Proof.
  unfold color_node, subscript.
  destruct (adj_matrix !! node) as [row|]; simpl; [|by intros [= <-]].
  destruct (neighbor_colors colors (np_where_eq_1 row)) as [used|e'] eqn:Hused; simpl.
  - destruct (first_free_color used) as (r & -> & _). done.
  - intros [= <-]. by apply neighbor_colors_Raise in Hused as [-> _].
Qed.

Lemma color_node_Ok_inv adj_matrix colors node colors' row :
  color_node adj_matrix colors node = Ok colors' →
  adj_matrix !! node = Some row →
  ∀ nb, nb ∈ np_where_eq_1 row → nb < length colors.
Proof.
  unfold color_node, subscript. intros Hrun Hrow. rewrite Hrow in Hrun. simpl in Hrun.
  apply bind_Ok in Hrun as (used & Hused & _). by eapply neighbor_colors_Ok_inv.
Qed.

Lemma size_list_to_set_le (l : list Z) : size (list_to_set (C := gset Z) l) ≤ length l.
Proof.
  induction l as [|x l IH]; [by rewrite list_to_set_nil, size_empty|].
  rewrite list_to_set_cons, size_union_alt, size_singleton.
  assert (size (list_to_set (C := gset Z) l ∖ {[x]}) ≤ size (list_to_set (C := gset Z) l))
    by (apply subseteq_size; intros y [? _]%elem_of_difference; done).
  simpl. lia.
Qed.

Section ColoringLoop.
Variable adj_matrix : matrix.
Variable n : nat.

Lemma color_node_loop_state k colors colors' :
  loop_state n k colors → k < n →
  color_node adj_matrix colors k = Ok colors' → loop_state n (S k) colors'.
Proof.
  intros (Hlen & Hrest & Hdone) Hk Hrun.
  unfold color_node in Hrun. apply bind_Ok in Hrun as (row & Hrow & Hrun).
  apply bind_Ok in Hrun as (used & Hused & Hrun).
  apply bind_Ok in Hrun as (r & Hr & [= <-]).
  pose proof (neighbor_colors_Ok_inv _ _ _ Hused) as Hlt.
  destruct (neighbor_colors_Ok colors (np_where_eq_1 row) Hlt) as (used' & Hused' & Hin & _).
  assert (used' = used) as -> by congruence.
  destruct (first_free_color used) as (r' & Hr' & Hr0 & Hrsize & _).
  assert (r' = r) as -> by congruence.
  assert (size used ≤ k) as Hsize.
  { etrans; [|etrans; [apply (size_list_to_set_le (take k colors))|]].
    - apply subseteq_size. intros c (Hsent & nb & Hnb & Hc)%Hin.
      apply elem_of_list_to_set, list_elem_of_lookup. exists nb.
      rewrite lookup_take_lt; [done|].
      destruct (decide (nb < k)); [done|]. apply Hlt in Hnb.
      rewrite Hrest in Hc by lia. congruence.
    - rewrite length_take. lia. }
  split; [by rewrite length_insert|]. split.
  - intros j Hj. rewrite list_lookup_insert_ne by lia. apply Hrest. lia.
  - intros i c Hi. destruct (decide (i = k)) as [->|Hne].
    + rewrite list_lookup_insert_eq by lia. intros [= <-]. lia.
    + rewrite list_lookup_insert_ne by lia. apply Hdone. lia.
Qed.

Lemma color_node_in_range k colors row :
  length colors = n → adj_matrix !! k = Some row →
  Forall (λ j, j < n) (np_where_eq_1 row) →
  ∃ colors', color_node adj_matrix colors k = Ok colors'.
Proof.
  intros Hlen Hrow Hin. unfold color_node, subscript. rewrite Hrow. simpl.
  destruct (neighbor_colors_Ok colors (np_where_eq_1 row)) as (used & -> & _).
  { intros nb Hnb. rewrite Forall_forall in Hin. rewrite Hlen. by apply Hin. }
  simpl. destruct (first_free_color used) as (r & -> & _). by eexists.
Qed.

Lemma coloring_loop_Ok m k colors :
  length adj_matrix = n → k + m = n →
  (∀ i row, k ≤ i → adj_matrix !! i = Some row →
            Forall (λ j, j < n) (np_where_eq_1 row)) →
  loop_state n k colors →
  ∃ colors', for_each (color_node adj_matrix) (seq k m) colors = Ok colors' ∧
             loop_state n n colors'.
Proof.
  intros Hrows. revert k colors. induction m as [|m IH]; intros k colors Hkm Hin Hstate.
  - exists colors. split; [done|]. assert (k = n) as -> by lia. done.
  - simpl. destruct (lookup_lt_is_Some_2 adj_matrix k) as [row Hrow]; [lia|].
    destruct (color_node_in_range k colors row) as [colors' Hstep];
      [apply Hstate|done|by eapply Hin|].
    rewrite Hstep. simpl. apply IH; [lia| |].
    + intros i row' Hi. apply Hin. lia.
    + eapply color_node_loop_state; [done|lia|done].
Qed.

Lemma coloring_loop_Raise m k colors :
  length colors = n →
  (∃ i row j, k ≤ i < k + m ∧ adj_matrix !! i = Some row ∧
              j ∈ np_where_eq_1 row ∧ n ≤ j) →
  for_each (color_node adj_matrix) (seq k m) colors = Raise IndexError.
Proof.
  revert k colors. induction m as [|m IH]; intros k colors Hlen Hbad.
  - destruct Hbad as (i & _ & _ & Hi & _). lia.
  - simpl. destruct (color_node adj_matrix colors k) as [colors'|e] eqn:Hstep; simpl.
    + apply color_node_shape in Hstep as Hshape. destruct Hshape as [c ->].
      apply IH; [by rewrite length_insert|].
      destruct Hbad as (i & row & j & Hi & Hrow & Hj & Hge).
      exists i, row, j. split; [|done].
      destruct (decide (i = k)) as [->|]; [|lia].
      pose proof (color_node_Ok_inv _ _ _ _ _ Hstep Hrow j Hj). lia.
    + by apply color_node_Raise in Hstep as ->.
Qed.
End ColoringLoop.

Lemma in_range_lookup adj_matrix i row :
  in_range adj_matrix → adj_matrix !! i = Some row →
  Forall (λ j, j < length adj_matrix) (np_where_eq_1 row).
Proof. intros Hin Hrow. by eapply (Forall_lookup_1 _ _ _ _ Hin). Qed.

Lemma loop_state_init n : loop_state n 0 (replicate n (-1)%Z).
Proof.
  split; [by rewrite length_replicate|]. split; [|lia].
  intros j Hj. apply lookup_replicate_2. lia.
Qed.

Lemma greedy_coloring_loop_state adj_matrix :
  in_range adj_matrix →
  ∃ colors, greedy_coloring adj_matrix = Ok colors ∧
            loop_state (length adj_matrix) (length adj_matrix) colors.
Proof.
  intros Hin. unfold greedy_coloring.
  apply (coloring_loop_Ok adj_matrix (length adj_matrix)); [done|lia| |].
  - intros i row _ Hrow. by eapply in_range_lookup.
  - apply loop_state_init.
Qed.

(** X1. [greedy_coloring] returns, with one colour per row, when no row has a
    1 in a column beyond the number of rows; otherwise it raises
    [IndexError], and it raises nothing else. *)
Theorem greedy_coloring_IndexError (adj_matrix : matrix) :
  (in_range adj_matrix →
   ∃ colors, greedy_coloring adj_matrix = Ok colors ∧
             length colors = length adj_matrix) ∧
  (¬ in_range adj_matrix → greedy_coloring adj_matrix = Raise IndexError).
Proof.
  split.
  - intros Hin. destruct (greedy_coloring_loop_state _ Hin) as (colors & -> & Hlen & _).
    by exists colors.
  - intros Hout. apply not_Forall_Exists in Hout; [|apply _].
    apply Exists_exists in Hout as (row & Hrow & Hbad). simpl in Hbad.
    apply not_Forall_Exists in Hbad; [|apply _].
    apply Exists_exists in Hbad as (j & Hj & Hge). simpl in Hge.
    apply list_elem_of_lookup_1 in Hrow as [i Hi].
    apply (coloring_loop_Raise adj_matrix (length adj_matrix));
      [by rewrite length_replicate|].
    exists i, row, j. apply lookup_lt_Some in Hi as Hlt.
    repeat split; [lia|lia|done|done|lia].
Qed.

Lemma greedy_coloring_IndexError_witness :
  (∃ colors, greedy_coloring path3 = Ok colors ∧ length colors = length path3) ∧
  greedy_coloring [[0; 0; 1]; [0; 0; 0]]%Z = Raise IndexError.
Proof.
  split.
  - apply (proj1 (greedy_coloring_IndexError path3)).
    repeat constructor.
  - apply (proj2 (greedy_coloring_IndexError [[0; 0; 1]; [0; 0; 0]]%Z)).
    intros Hin. apply Forall_cons in Hin as [Hrow _].
    apply Forall_cons in Hrow as [Hlt _]. simpl in Hlt. lia.
Defined.

(** X2. The colour of node [i] is at least 0 and at most [i]: the colours
    used are smaller than the number of nodes, and node 0 has colour 0. *)
Theorem greedy_coloring_le_index (adj_matrix : matrix) :
  in_range adj_matrix →
  ∃ colors, greedy_coloring adj_matrix = Ok colors ∧
    ∀ i c, colors !! i = Some c → (0 ≤ c ≤ Z.of_nat i)%Z.
Proof.
  intros Hin.
  destruct (greedy_coloring_loop_state _ Hin) as (colors & -> & Hlen & _ & Hdone).
  exists colors. split; [done|]. intros i c Hc. apply (Hdone i c); [|done].
  apply lookup_lt_Some in Hc. lia.
Qed.

Lemma greedy_coloring_le_index_witness :
  ∃ colors, greedy_coloring path3 = Ok colors ∧
    ∀ i c, colors !! i = Some c → (0 ≤ c ≤ Z.of_nat i)%Z.
Proof. apply greedy_coloring_le_index. repeat constructor. Defined.

(** ** What the colouring reads *)

Lemma color_node_same_below a b colors k rowa rowb :
  a !! k = Some rowa → b !! k = Some rowb →
  (∀ j, j ∈ np_where_eq_1 rowa → j < length colors) →
  (∀ j, j ∈ np_where_eq_1 rowb → j < length colors) →
  (∀ j, j < k → (edge a k j ↔ edge b k j)) →
  (∀ j, k ≤ j < length colors → colors !! j = Some (-1)%Z) →
  color_node a colors k = color_node b colors k.
Proof.
  intros Hrowa Hrowb Hlta Hltb Hsame Hrest.
  unfold color_node, subscript. rewrite Hrowa, Hrowb. simpl.
  destruct (neighbor_colors_Ok colors (np_where_eq_1 rowa) Hlta) as (useda & -> & Ha & _).
  destruct (neighbor_colors_Ok colors (np_where_eq_1 rowb) Hltb) as (usedb & -> & Hb & _).
  assert (useda = usedb) as ->; [|done].
  assert (∀ (x y : matrix) rowx rowy c,
            x !! k = Some rowx → y !! k = Some rowy →
            (∀ j, j ∈ np_where_eq_1 rowx → j < length colors) →
            (∀ j, j < k → (edge x k j ↔ edge y k j)) →
            (c ≠ (-1)%Z ∧ ∃ nb, nb ∈ np_where_eq_1 rowx ∧ colors !! nb = Some c) →
            (c ≠ (-1)%Z ∧ ∃ nb, nb ∈ np_where_eq_1 rowy ∧ colors !! nb = Some c))
    as Hone.
  { intros x y rowx rowy c Hx Hy Hlt Hxy (Hsent & nb & Hnb & Hc). split; [done|].
    exists nb. split; [|done].
    assert (nb < k).
    { destruct (decide (nb < k)); [done|]. apply Hlt in Hnb as Hlen.
      rewrite Hrest in Hc by lia. congruence. }
    apply (edge_lookup y k nb rowy Hy), Hxy; [done|].
    by apply (edge_lookup x k nb rowx Hx). }
  apply set_eq. intros c. rewrite Ha, Hb. split.
  - by apply (Hone a b rowa rowb).
  - apply (Hone b a rowb rowa); [done..|]. intros j Hj. symmetry. by apply Hsame.
Qed.

Lemma coloring_loop_same_below a b m k colors :
  in_range a → in_range b → same_below a b →
  length colors = length a →
  (∀ j, k ≤ j < length colors → colors !! j = Some (-1)%Z) →
  k + m = length a →
  for_each (color_node a) (seq k m) colors = for_each (color_node b) (seq k m) colors.
Proof.
  intros Ha Hb [Hlen Hsame]. revert k colors.
  induction m as [|m IH]; intros k colors Hcolors Hrest Hkm; simpl; [done|].
  destruct (lookup_lt_is_Some_2 a k) as [rowa Hrowa]; [lia|].
  destruct (lookup_lt_is_Some_2 b k) as [rowb Hrowb]; [lia|].
  rewrite (color_node_same_below a b colors k rowa rowb); try done.
  - destruct (color_node b colors k) as [colors'|e] eqn:Hstep; simpl; [|done].
    apply color_node_shape in Hstep as [c ->].
    apply IH; [by rewrite length_insert| |lia].
    intros j Hj. rewrite length_insert in Hj.
    rewrite list_lookup_insert_ne by lia. apply Hrest. lia.
  - intros j Hj. rewrite Hcolors.
    pose proof (in_range_lookup a k rowa Ha Hrowa) as Hf.
    rewrite Forall_forall in Hf. by apply Hf.
  - intros j Hj. rewrite Hcolors, Hlen.
    pose proof (in_range_lookup b k rowb Hb Hrowb) as Hf.
    rewrite Forall_forall in Hf. by apply Hf.
  - intros j Hj. by apply Hsame.
Qed.

(** X3. The colouring reads the matrix below the diagonal only: two
    matrices with as many rows, without a 1 beyond their width, in which each
    node has the same neighbours of smaller index, get the same colours. *)
Theorem greedy_coloring_same_below (a b : matrix) :
  in_range a → in_range b → same_below a b →
  greedy_coloring a = greedy_coloring b.
Proof.
  intros Ha Hb Hsame. unfold greedy_coloring. rewrite <- (proj1 Hsame).
  apply coloring_loop_same_below; try done.
  - by rewrite length_replicate.
  - intros j Hj. rewrite length_replicate in Hj. apply lookup_replicate_2. lia.
Qed.

Lemma greedy_coloring_same_below_witness :
  greedy_coloring path3 = greedy_coloring [[0;0;0];[1;0;0];[0;1;0]]%Z.
Proof.
  apply greedy_coloring_same_below; [repeat constructor..|].
  split; [reflexivity|]. intros i j Hij.
  do 3 (destruct i as [|i]; [do 3 (destruct j as [|j]; [done || lia|]); done|]).
  do 3 (destruct j as [|j]; [done|]); done.
Defined.

(** X4. When every node is a neighbour of all the nodes before it (a complete
    graph, for one), node [i] gets colour [i]: as many colours as nodes. *)
Theorem greedy_coloring_complete (adj_matrix : matrix) (n : nat) :
  square adj_matrix n →
  (∀ i j, i < n → j < i → edge adj_matrix i j) →
  greedy_coloring adj_matrix = Ok (Z.of_nat <$> seq 0 n).
Proof.
  intros Hsq Hall.
  destruct (greedy_coloring_Ok adj_matrix n Hsq) as (colors & -> & Hlen & _ & Hdone).
  f_equal. apply list_eq_same_length with n; [by rewrite length_fmap, length_seq|done|].
  intros i x y Hi Hx Hy.
  rewrite list_lookup_fmap, lookup_seq_lt in Hy by done. injection Hy as <-.
  revert x Hx. induction (lt_wf i) as [i _ IH]. intros c Hc.
  destruct (lookup_lt_is_Some_2 adj_matrix i) as [row Hrow]; [destruct Hsq; lia|].
  destruct (Hdone i row Hi Hrow) as (c' & Hc' & (Hc0 & Hfree & Hbelow) & _).
  assert (c' = c) as -> by congruence.
  assert (∀ j, j < i → colors !! j = Some (Z.of_nat j)) as Hprev.
  { intros j Hj. destruct (lookup_lt_is_Some_2 colors j) as [cj Hcj]; [lia|].
    rewrite Hcj. f_equal. apply IH; [done|lia|done]. }
  destruct (decide (c < Z.of_nat i)%Z) as [Hlt|Hge].
  - destruct (Hfree (Z.to_nat c)); [lia|apply Hall; lia|].
    rewrite Hprev by lia. f_equal. lia.
  - destruct (decide (c = Z.of_nat i)) as [|Hne]; [done|].
    destruct (Hbelow (Z.of_nat i)) as (j & Hj & _ & Hcj); [lia|].
    rewrite Hprev in Hcj by done. injection Hcj as Hcj. lia.
Qed.

Lemma greedy_coloring_complete_witness :
  greedy_coloring [[0;1;1];[1;0;1];[1;1;0]]%Z = Ok (Z.of_nat <$> seq 0 3).
Proof.
  apply greedy_coloring_complete; [concrete_square|].
  intros i j Hi Hj. do 3 (destruct i as [|i]; [do 3 (destruct j as [|j]; [done || lia|]); lia|]).
  lia.
Defined.

(** X5. A node without a neighbour of smaller index gets colour 0; so does
    every node of a graph without edges. *)
Theorem greedy_coloring_zero (adj_matrix : matrix) (n : nat) :
  square adj_matrix n →
  ∃ colors, greedy_coloring adj_matrix = Ok colors ∧
    ∀ i, i < n → (∀ j, j < i → ¬ edge adj_matrix i j) →
         colors !! i = Some 0%Z.
Proof.
  intros Hsq.
  destruct (greedy_coloring_Ok adj_matrix n Hsq) as (colors & -> & Hlen & _ & Hdone).
  exists colors. split; [done|]. intros i Hi Hnone.
  destruct (lookup_lt_is_Some_2 adj_matrix i) as [row Hrow]; [destruct Hsq; lia|].
  destruct (Hdone i row Hi Hrow) as (c & -> & (Hc0 & _ & Hbelow) & _).
  destruct (decide (c = 0%Z)) as [->|Hne]; [done|].
  destruct (Hbelow 0%Z) as (j & Hj & Hedge & _); [lia|].
  by destruct (Hnone j Hj).
Qed.

Lemma greedy_coloring_zero_witness :
  ∃ colors, greedy_coloring path3 = Ok colors ∧
    ∀ i, i < 3 → (∀ j, j < i → ¬ edge path3 i j) → colors !! i = Some 0%Z.
Proof. apply greedy_coloring_zero. concrete_square. Defined.

(** ** The graph generation *)

(** X6. With at least one node and a density outside [0, 1] no graph is
    generated: [generate_graph] shows the density error and returns
    [(None, None)], and [main] does not colour.  With at least one node and
    an admissible density it shows nothing and returns the generated graph
    with its matrix, which [main] colours. *)
Theorem generate_graph_density {Graph Prob : Type}
    (prob_lt_0 prob_gt_1 : Prob → bool)
    (fast_gnp_random_graph : Z → Prob → Graph)
    (to_numpy_array : Graph → matrix)
    (n_nodes : Z) (prob : Prob) :
  (1 ≤ n_nodes)%Z →
  let G := fast_gnp_random_graph n_nodes prob in
  (prob_lt_0 prob = true ∨ prob_gt_1 prob = true →
   generate_graph prob_lt_0 prob_gt_1 fast_gnp_random_graph to_numpy_array
                  n_nodes prob = ([DensityBetween0And1], (None, None)) ∧
   main_coloring prob_lt_0 prob_gt_1 fast_gnp_random_graph to_numpy_array
                 n_nodes prob = ([DensityBetween0And1; FailedToGenerate], None)) ∧
  (prob_lt_0 prob = false ∧ prob_gt_1 prob = false →
   generate_graph prob_lt_0 prob_gt_1 fast_gnp_random_graph to_numpy_array
                  n_nodes prob = ([], (Some G, Some (to_numpy_array G))) ∧
   main_coloring prob_lt_0 prob_gt_1 fast_gnp_random_graph to_numpy_array
                 n_nodes prob = ([], Some (greedy_coloring (to_numpy_array G)))).
Proof.
  intros Hn G. unfold main_coloring, generate_graph.
  rewrite decide_False by lia. split.
  - intros [-> | ->]; [done|]. by rewrite orb_true_r.
  - by intros [-> ->].
Qed.

Lemma generate_graph_density_witness :
  (generate_graph (λ p : Z, bool_decide (p < 0)%Z) (λ p, bool_decide (1 < p)%Z)
                  (λ _ _, ()) (λ _, path3) 3%Z 2%Z
     = ([DensityBetween0And1], (None, None)) ∧
   main_coloring (λ p : Z, bool_decide (p < 0)%Z) (λ p, bool_decide (1 < p)%Z)
                 (λ _ _, ()) (λ _, path3) 3%Z 2%Z
     = ([DensityBetween0And1; FailedToGenerate], None)) ∧
  (generate_graph (λ p : Z, bool_decide (p < 0)%Z) (λ p, bool_decide (1 < p)%Z)
                  (λ _ _, ()) (λ _, path3) 3%Z 1%Z
     = ([], (Some (), Some path3)) ∧
   main_coloring (λ p : Z, bool_decide (p < 0)%Z) (λ p, bool_decide (1 < p)%Z)
                 (λ _ _, ()) (λ _, path3) 3%Z 1%Z
     = ([], Some (greedy_coloring path3))).
Proof.
  split.
  - apply (generate_graph_density (λ p : Z, bool_decide (p < 0)%Z)
             (λ p, bool_decide (1 < p)%Z) (λ _ _, ()) (λ _, path3) 3%Z 2%Z);
      [lia|by right].
  - apply (generate_graph_density (λ p : Z, bool_decide (p < 0)%Z)
             (λ p, bool_decide (1 < p)%Z) (λ _ _, ()) (λ _, path3) 3%Z 1%Z);
      [lia|by split].
Defined.

(** ** The timeline *)

Lemma edge_or_not adj_matrix n t :
  square adj_matrix n → t < n →
  (∀ d, ¬ edge adj_matrix t d) ∨ (∃ d, edge adj_matrix t d).
Proof.
  intros [Hrows _] Ht.
  destruct (lookup_lt_is_Some_2 adj_matrix t) as [row Hrow]; [lia|].
  destruct (np_where_eq_1 row) as [|d ?] eqn:Hnil.
  - left. intros d Hd%(edge_lookup adj_matrix t d row Hrow).
    rewrite Hnil in Hd. by apply elem_of_nil in Hd.
  - right. exists d. apply (edge_lookup adj_matrix t d row Hrow).
    rewrite Hnil. by left.
Qed.

Lemma start_times_nonneg adj_matrix n dur order st :
  square adj_matrix n → order ≡ₚ seq 0 n →
  (∀ t d, dur !! t = Some d → (0 ≤ d)%Z) →
  start_times_upto adj_matrix n dur order st →
  ∀ k t s, order !! k = Some t → st !! t = Some s → (0 ≤ s)%Z.
Proof.
  intros Hsq Hperm Hdur (_ & _ & Hrule) k.
  induction (lt_wf k) as [k _ IH]. intros t s Ht Hs.
  assert (t < n) as Hlt.
  { apply list_elem_of_lookup_2 in Ht. rewrite Hperm in Ht.
    apply elem_of_seq in Ht. lia. }
  destruct (Hrule k t Ht) as [Hnone Hsome].
  destruct (edge_or_not adj_matrix n t Hsq Hlt) as [He|He].
  - rewrite Hnone in Hs by done. injection Hs as <-. lia.
  - destruct (Hsome He) as (m & Hm & (d & du & _ & Hdu & ->) & _).
    assert (s = (current_start (take k order) st d + du)%Z) as -> by congruence.
    apply Hdur in Hdu. unfold current_start. case_decide as Hin; [|lia].
    apply elem_of_take in Hin as (p & Hp & Hpk).
    destruct (st !! d) as [sd|] eqn:Hsd; simpl; [|lia].
    specialize (IH p Hpk d sd Hp Hsd). lia.
Qed.

(** X7. With durations that are not negative, no start time is negative and
    no row finishes before it starts. *)
Theorem schedule_times_nonneg adj_matrix n dur dl prio desc colors :
  well_formed adj_matrix n dur dl prio desc colors →
  (∀ t d, dur !! t = Some d → (0 ≤ d)%Z) →
  ∃ order st gantt overdue,
    schedule adj_matrix n dur dl prio desc colors = Ok (order, st, gantt, overdue) ∧
    Forall (λ row, (0 ≤ Start row ≤ Finish row)%Z) gantt.
Proof.
  intros Hwf Hdur.
  destruct (schedule_Ok _ _ _ _ _ _ _ Hwf)
    as (order & st & gantt & overdue & Hrun & [Hperm _] & Hst & Hrows & _).
  exists order, st, gantt, overdue. split; [done|].
  destruct Hwf as (Hsq & _).
  apply Forall_lookup. intros k row Hrow.
  destruct (Forall2_lookup_r _ _ _ _ _ Hrows Hrow) as (t & Ht & Hentry).
  apply gantt_entry_Ok in Hentry as (? & start & duration & ? & _ & Hs & Hd & _ & ->).
  simpl. apply Hdur in Hd.
  pose proof (start_times_nonneg _ _ _ _ _ Hsq Hperm Hdur Hst k t start Ht Hs). lia.
Qed.

Lemma schedule_times_nonneg_witness :
  ∃ order st gantt overdue,
    schedule scenario3_adj 2 scenario3_duration default_deadlines
             scenario3_priorities default_descriptions [0; 1]%Z
      = Ok (order, st, gantt, overdue) ∧
    Forall (λ row, (0 ≤ Start row ≤ Finish row)%Z) gantt.
Proof.
  apply schedule_times_nonneg; [concrete_well_formed|].
  intros t d Hd. unfold scenario3_duration in Hd.
  apply lookup_insert_Some in Hd as [[_ <-]|[_ Hd]]; [lia|].
  apply lookup_insert_Some in Hd as [[_ <-]|[_ Hd]]; [lia|].
  by rewrite lookup_empty in Hd.
Defined.

(** X8. Two neighbours do not overlap in time: when [d] comes before [t] in the
    priority order and the row of [t] has a 1 in column [d], task [t] starts
    no earlier than [d] finishes. *)
Theorem schedule_neighbours_apart adj_matrix n dur dl prio desc colors :
  well_formed adj_matrix n dur dl prio desc colors →
  ∃ order st gantt overdue,
    schedule adj_matrix n dur dl prio desc colors = Ok (order, st, gantt, overdue) ∧
    ∀ p q d t, p < q → order !! p = Some d → order !! q = Some t →
      edge adj_matrix t d →
      ∃ start_d duration_d start_t,
        st !! d = Some start_d ∧ dur !! d = Some duration_d ∧
        st !! t = Some start_t ∧ (start_d + duration_d ≤ start_t)%Z.
Proof.
  intros Hwf.
  destruct (schedule_Ok _ _ _ _ _ _ _ Hwf)
    as (order & st & gantt & overdue & Hrun & _ & (Hdef & _ & Hrule) & _).
  exists order, st, gantt, overdue. split; [done|].
  intros p q d t Hpq Hd Ht Hedge.
  destruct (Hrule q t Ht) as [_ Hsome].
  destruct Hsome as (m & Hm & _ & Hmax); [by exists d|].
  destruct (Hmax d Hedge) as (du & Hdu & Hle).
  assert (d ∈ take q order) as Hin by (apply elem_of_take; by exists p).
  unfold current_start in Hle. rewrite decide_True in Hle by done.
  destruct (st !! d) as [sd|] eqn:Hsd.
  - exists sd, du, m. by simpl in Hle.
  - destruct Hwf as (Hsq & _). destruct (edge_lt _ _ _ _ Hsq Hedge) as [_ Hdn].
    destruct (Hdef d Hdn) as [? ?]. congruence.
Qed.

Lemma schedule_neighbours_apart_witness :
  ∃ order st gantt overdue,
    schedule scenario3_adj 2 scenario3_duration default_deadlines
             scenario3_priorities default_descriptions [0; 1]%Z
      = Ok (order, st, gantt, overdue) ∧
    ∀ p q d t, p < q → order !! p = Some d → order !! q = Some t →
      edge scenario3_adj t d →
      ∃ start_d duration_d start_t,
        st !! d = Some start_d ∧ scenario3_duration !! d = Some duration_d ∧
        st !! t = Some start_t ∧ (start_d + duration_d ≤ start_t)%Z.
Proof. apply schedule_neighbours_apart. concrete_well_formed. Defined.

(** X9. Without any edge every task starts at 0 and finishes after its
    duration. *)
Theorem schedule_no_edges adj_matrix n dur dl prio desc colors :
  well_formed adj_matrix n dur dl prio desc colors →
  (∀ i j, ¬ edge adj_matrix i j) →
  ∃ order st gantt overdue,
    schedule adj_matrix n dur dl prio desc colors = Ok (order, st, gantt, overdue) ∧
    (∀ t, t < n → st !! t = Some 0%Z) ∧
    Forall2 (λ t row, Start row = 0%Z ∧ dur !! t = Some (Finish row)) order gantt.
Proof.
  intros Hwf Hnone.
  destruct (schedule_Ok _ _ _ _ _ _ _ Hwf)
    as (order & st & gantt & overdue & Hrun & [Hperm _] & (_ & _ & Hrule) & Hrows & _).
  exists order, st, gantt, overdue. split; [done|].
  assert (∀ t, t ∈ order → st !! t = Some 0%Z) as Hzero.
  { intros t [k Hk]%list_elem_of_lookup_1. by apply (Hrule k t Hk). }
  split.
  - intros t Ht. apply Hzero. rewrite Hperm, elem_of_seq. lia.
  - apply Forall2_same_length_lookup. split; [by eapply Forall2_length|].
    intros k t row Ht Hrow.
    destruct (Forall2_lookup_l _ _ _ _ _ Hrows Ht) as (row' & Hrow' & Hentry).
    assert (row' = row) as -> by congruence.
    apply gantt_entry_Ok in Hentry as (? & start & duration & ? & _ & Hs & Hd & _ & ->).
    rewrite Hzero in Hs by (by eapply list_elem_of_lookup_2).
    injection Hs as <-. simpl. split; [done|]. rewrite Hd. f_equal; lia.
Qed.

Lemma schedule_no_edges_witness :
  ∃ order st gantt overdue,
    schedule [[0;0];[0;0]]%Z 2 scenario3_duration default_deadlines
             scenario3_priorities default_descriptions [0; 0]%Z
      = Ok (order, st, gantt, overdue) ∧
    (∀ t, t < 2 → st !! t = Some 0%Z) ∧
    Forall2 (λ t row, Start row = 0%Z ∧ scenario3_duration !! t = Some (Finish row))
            order gantt.
Proof.
  apply schedule_no_edges; [concrete_well_formed|].
  intros i j. do 2 (destruct i as [|i]; [do 2 (destruct j as [|j]; [done|]); done|]).
  done.
Defined.

Lemma StronglySorted_seq_task_before (task_priorities : gmap nat Z) (n m k : nat) :
  defined_on task_priorities n →
  (∀ i j pi pj, i < j < n → task_priorities !! i = Some pi →
                task_priorities !! j = Some pj → (pi ≤ pj)%Z) →
  k + m ≤ n → StronglySorted (task_before task_priorities) (seq k m).
Proof.
  intros Hdef Hmono. revert k. induction m as [|m IH]; intros k Hkm; simpl.
  - constructor.
  - constructor; [apply IH; lia|]. apply Forall_forall. intros j Hj%elem_of_seq.
    destruct (Hdef k) as [pk Hpk]; [lia|]. destruct (Hdef j) as [pj Hpj]; [lia|].
    exists pk, pj. split; [done|]. split; [done|].
    pose proof (Hmono k j pk pj ltac:(lia) Hpk Hpj). lia.
Qed.

(** X10. When the priority values do not decrease with the index (all equal,
    as the sliders start, for one), the priority order is the index order. *)
Theorem sorted_tasks_identity (task_priorities : gmap nat Z) (n : nat) :
  defined_on task_priorities n →
  (∀ i j pi pj, i < j < n → task_priorities !! i = Some pi →
                task_priorities !! j = Some pj → (pi ≤ pj)%Z) →
  sorted (seq 0 n) (getitem task_priorities) = Ok (seq 0 n).
Proof.
  intros Hdef Hmono.
  destruct (sorted_tasks_Ok task_priorities n Hdef) as (order & -> & Hperm & Hsorted).
  f_equal. apply (StronglySorted_unique_strong (task_before task_priorities));
    [|done| |done].
  - intros a b _ _ (pa & pb & Ha & Hb & Hab) (pb' & pa' & Hb' & Ha' & Hba).
    simplify_eq. lia.
  - by apply (StronglySorted_seq_task_before task_priorities n).
Qed.

Lemma sorted_tasks_identity_witness :
  sorted (seq 0 2) (getitem default_priorities) = Ok (seq 0 2).
Proof.
  apply sorted_tasks_identity; [concrete_defined_on|].
  intros i j pi pj Hij Hi Hj.
  assert (i = 0) as -> by lia. assert (j = 1) as -> by lia.
  vm_compute in Hi, Hj. injection Hi as <-. injection Hj as <-. lia.
Defined.

(** ** Exceptions of the scheduling statements *)

Lemma comprehension_Raise {A B} (f : A → res B) xs e :
  (∀ x, x ∈ xs → (∃ y, f x = Ok y) ∨ f x = Raise e) →
  (∃ x, x ∈ xs ∧ f x = Raise e) →
  comprehension f xs = Raise e.
Proof.
  induction xs as [|x xs IH]; intros Hall (x' & Hin & Hx'); simpl.
  - by apply elem_of_nil in Hin.
  - destruct (Hall x) as [[y Hy] | ->]; [by left| |done]. rewrite Hy. simpl.
    rewrite IH; [done| |].
    + intros ??. apply Hall. by right.
    + apply elem_of_cons in Hin as [->|Hin]; [congruence|]. by exists x'.
Qed.

(** X11. A task without a priority makes the scheduling raise [KeyError],
    whatever the other inputs: nothing is scheduled. *)
Theorem schedule_missing_priority adj_matrix n dur dl prio desc colors i :
  i < n → prio !! i = None →
  schedule adj_matrix n dur dl prio desc colors = Raise KeyError.
Proof.
  intros Hi Hnone. unfold schedule, sorted.
  rewrite (comprehension_Raise (getitem prio) (seq 0 n) KeyError); [done| |].
  - intros x _. unfold getitem. destruct (prio !! x); [left; by eexists|by right].
  - exists i. split; [apply elem_of_seq; lia|]. unfold getitem. by rewrite Hnone.
Qed.

Lemma schedule_missing_priority_witness :
  schedule scenario3_adj 2 scenario3_duration default_deadlines
           (<[0 := 1%Z]> ∅) default_descriptions [0; 1]%Z = Raise KeyError.
Proof. apply (schedule_missing_priority _ _ _ _ _ _ _ 1); [lia|reflexivity]. Defined.

(** X12. With fewer colours than tasks, and the other inputs well formed,
    the scheduling raises [IndexError] when it builds the Gantt rows. *)
Theorem schedule_too_few_colors adj_matrix n dur dl prio desc colors :
  square adj_matrix n → defined_on dur n → defined_on prio n → defined_on desc n →
  length colors < n →
  schedule adj_matrix n dur dl prio desc colors = Raise IndexError.
Proof.
  intros Hsq Hdur Hprio Hdesc Hshort. unfold schedule.
  destruct (sorted_tasks_Ok prio n Hprio) as (order & -> & Hperm & _). simpl.
  assert (∀ t, t ∈ order ↔ t < n) as Hin.
  { intros t. rewrite Hperm, elem_of_seq. lia. }
  destruct (compute_start_times_Ok adj_matrix n dur Hsq Hdur order)
    as (st & -> & Hst & _).
  { rewrite Hperm. apply NoDup_seq. }
  { intros t. apply Hin. }
  simpl.
  rewrite (comprehension_Raise (gantt_entry desc st dur colors) order IndexError);
    [done| |].
  - intros t Ht%Hin. destruct (Hdesc t Ht) as [? Hd]. destruct (Hst t Ht) as [? Hs].
    destruct (Hdur t Ht) as [? Hdu].
    unfold gantt_entry, getitem, subscript. rewrite Hd, Hs, Hdu. simpl.
    destruct (colors !! t); [left; by eexists|by right].
  - exists (length colors). split; [by apply Hin|].
    destruct (Hdesc (length colors) Hshort) as [? Hd].
    destruct (Hst (length colors) Hshort) as [? Hs].
    destruct (Hdur (length colors) Hshort) as [? Hdu].
    unfold gantt_entry, getitem, subscript. rewrite Hd, Hs, Hdu. simpl.
    by rewrite lookup_ge_None_2.
Qed.

Lemma schedule_too_few_colors_witness :
  schedule scenario3_adj 2 scenario3_duration default_deadlines
           scenario3_priorities default_descriptions [0]%Z = Raise IndexError.
Proof.
  apply schedule_too_few_colors;
    [concrete_square|concrete_defined_on..|simpl; lia].
Defined.

(** ** The display colours and the bars *)

Lemma generate_color_map_lookup cmap_hex (n_colors : nat) (c : Z) :
  generate_color_map cmap_hex n_colors !! c =
  if decide (0 ≤ c < Z.of_nat n_colors)%Z
  then Some (cmap_hex n_colors (Z.to_nat c)) else None.
Proof.
  unfold generate_color_map. generalize (cmap_hex n_colors) as hex. intros hex.
  induction n_colors as [|k IH].
  - simpl. rewrite lookup_empty. by rewrite decide_False by lia.
  - rewrite seq_S, foldl_app. simpl.
    destruct (decide (Z.of_nat k = c)) as [<-|Hne].
    + rewrite lookup_insert_eq, decide_True by lia. by rewrite Nat2Z.id.
    + rewrite lookup_insert_ne, IH by done.
      destruct (decide (0 ≤ c < Z.of_nat k)%Z).
      * by rewrite decide_True by lia.
      * by rewrite decide_False by lia.
Qed.

(** X13. The colours of the drawn nodes are always found: with one colour
    per node, [node_colors] raises nothing and gives node [i] the entry of the
    colour map at its colour modulo [n_colors]. *)
Theorem node_colors_Ok cmap_hex (n_colors : positive) (assigned_colors : list Z)
    (n_nodes : nat) :
  length assigned_colors = n_nodes →
  ∃ cols,
    node_colors (generate_color_map cmap_hex (Pos.to_nat n_colors)) n_colors
                assigned_colors n_nodes = Ok cols ∧
    length cols = n_nodes ∧
    ∀ i c, assigned_colors !! i = Some c →
           cols !! i = Some (cmap_hex (Pos.to_nat n_colors)
                                      (Z.to_nat (c `mod` Z.pos n_colors))).
Proof.
  intros Hlen. unfold node_colors.
  set (f := λ node, c ← subscript assigned_colors node;
                    getcolor (generate_color_map cmap_hex (Pos.to_nat n_colors))
                             (c `mod` Z.pos n_colors)%Z).
  assert (∀ i c, assigned_colors !! i = Some c →
            f i = Ok (cmap_hex (Pos.to_nat n_colors)
                               (Z.to_nat (c `mod` Z.pos n_colors)))) as Hf.
  { intros i c Hc. unfold f, subscript, getcolor. rewrite Hc. simpl.
    rewrite generate_color_map_lookup, decide_True; [done|].
    pose proof (Z.mod_pos_bound c (Z.pos n_colors)). lia. }
  destruct (comprehension_total f (seq 0 n_nodes)) as [cols Hcols].
  { intros i Hi%elem_of_seq.
    destruct (lookup_lt_is_Some_2 assigned_colors i) as [c Hc]; [lia|]. eauto. }
  exists cols. split; [done|]. apply comprehension_Ok in Hcols.
  apply Forall2_length in Hcols as Hlen'. rewrite length_seq in Hlen'.
  split; [done|]. intros i c Hc. apply lookup_lt_Some in Hc as Hi.
  destruct (Forall2_lookup_l _ _ _ i i Hcols) as (col & -> & Hcol).
  { apply lookup_seq_lt. lia. }
  rewrite (Hf i c Hc) in Hcol. congruence.
Qed.

Lemma node_colors_Ok_witness :
  ∃ cols,
    node_colors (generate_color_map (λ _ i, pretty i) (Pos.to_nat 2)) 2
                [0; 1; 2; 5]%Z 4 = Ok cols ∧
    length cols = 4 ∧
    ∀ i c, [0; 1; 2; 5]%Z !! i = Some c →
           cols !! i = Some ((λ _ i, pretty i) (Pos.to_nat 2)
                               (Z.to_nat (c `mod` Z.pos 2))).
Proof. apply node_colors_Ok. reflexivity. Defined.

Lemma schedule_Ok_inv adj_matrix n dur dl prio desc colors order st gantt overdue :
  schedule adj_matrix n dur dl prio desc colors = Ok (order, st, gantt, overdue) →
  sorted (seq 0 n) (getitem prio) = Ok order ∧
  compute_start_times adj_matrix dur order n = Ok st ∧
  comprehension (gantt_entry desc st dur colors) order = Ok gantt ∧
  overdue_tasks st dur dl order = Ok overdue.
Proof.
  unfold schedule. intros (order' & Horder & Hrun)%bind_Ok.
  apply bind_Ok in Hrun as (st' & Hst & Hrun).
  apply bind_Ok in Hrun as (gantt' & Hgantt & Hrun).
  apply bind_Ok in Hrun as (overdue' & Hoverdue & Hrun).
  by injection Hrun as <- <- <- <-.
Qed.

Lemma add_trace_lookup gantt colors color_map task :
  add_trace gantt colors color_map task =
  match gantt !! task, colors !! task with
  | Some row, Some c =>
      match color_map !! c with
      | Some color => Ok {| bar_x := (Finish row - Start row)%Z; bar_y := Task row;
                            bar_base := Start row; bar_name := Resource row;
                            bar_color := color |}
      | None => Raise KeyError
      end
  | _, _ => Raise IndexError
  end.
Proof.
  unfold add_trace, subscript, getcolor.
  destruct (gantt !! task); simpl; [|done]. destruct (colors !! task); simpl; [|done].
  by destruct (color_map !! _).
Qed.

Lemma allocate_execution_timeline cmap_hex n_colors adj_matrix n dur dl prio desc :
  allocate cmap_hex n_colors adj_matrix n dur dl prio desc =
  (colors ← greedy_coloring adj_matrix;
   cols ← node_colors (generate_color_map cmap_hex (Pos.to_nat n_colors))
                      n_colors colors n;
   r ← execution_timeline adj_matrix n dur dl prio desc colors
                          (generate_color_map cmap_hex (Pos.to_nat n_colors));
   let '(order, st, gantt, bars, overdue) := r in
   Ok {| alloc_colors := colors; alloc_node_colors := cols;
         alloc_sorted_tasks := order; alloc_start_times := st;
         alloc_gantt_data := gantt; alloc_bars := bars;
         alloc_overdue := overdue; alloc_error := overdue_error overdue |}).
Proof.
  unfold allocate, execution_timeline.
  destruct (greedy_coloring adj_matrix) as [colors|]; simpl; [|done].
  destruct (node_colors _ n_colors colors n) as [cols|]; simpl; [|done].
  destruct (sorted (seq 0 n) (getitem prio)) as [order|]; simpl; [|done].
  destruct (compute_start_times adj_matrix dur order n) as [st|]; simpl; [|done].
  destruct (comprehension (gantt_entry desc st dur colors) order) as [gantt|];
    simpl; [|done].
  destruct (comprehension (add_trace gantt colors _) order) as [bars|]; simpl; [|done].
  by destruct (overdue_tasks st dur dl order).
Qed.

(** The colours that [greedy_coloring] gives on a square matrix, with the two
    bounds that make them keys of the colour map. *)
Lemma greedy_coloring_bounds adj_matrix n :
  square adj_matrix n →
  ∃ colors, greedy_coloring adj_matrix = Ok colors ∧ length colors = n ∧
    ∀ i c, colors !! i = Some c →
      (0 ≤ c)%Z ∧ (c ≤ Z.of_nat (max_degree adj_matrix))%Z ∧ (c < Z.of_nat n)%Z.
Proof.
  intros Hsq.
  destruct (greedy_coloring_Ok adj_matrix n Hsq) as (colors & Hrun & Hlen & _ & Hdone).
  assert (in_range adj_matrix) as Hin.
  { destruct Hsq as [Hrows Hcols]. apply Forall_forall. intros row Hrow.
    apply Forall_forall. intros j Hj%np_where_eq_1_lt.
    rewrite (Hcols row Hrow) in Hj. lia. }
  destruct (greedy_coloring_loop_state _ Hin) as (colors' & Hrun' & _ & _ & Hidx).
  assert (colors' = colors) as -> by congruence.
  exists colors. split; [done|]. split; [done|]. intros i c Hc.
  apply lookup_lt_Some in Hc as Hi.
  destruct (lookup_lt_is_Some_2 adj_matrix i) as [row Hrow]; [destruct Hsq; lia|].
  destruct (Hdone i row ltac:(lia) Hrow) as (c' & Hc' & _ & Hdeg).
  assert (c' = c) as -> by congruence.
  apply degree_le_max_degree in Hrow.
  destruct (Hidx i c) as [? ?]; [destruct Hsq; lia|done|]. lia.
Qed.

Section Allocate.
Variable cmap_hex : nat → nat → string.
Variable n_colors : positive.
Variable adj_matrix : matrix.
Variable n : nat.
Variable dur dl prio : gmap nat Z.
Variable desc : gmap nat string.
Hypothesis Hsquare : square adj_matrix n.
Hypothesis Hdur : defined_on dur n.
Hypothesis Hdl : defined_on dl n.
Hypothesis Hprio : defined_on prio n.
Hypothesis Hdesc : defined_on desc n.

(** [allocate] once the colouring and the scheduling statements are known to
    succeed: what remains is the loop of the bars. *)
Lemma allocate_bars :
  ∃ colors cols order st gantt overdue,
    greedy_coloring adj_matrix = Ok colors ∧ length colors = n ∧
    (∀ i c, colors !! i = Some c →
       (0 ≤ c)%Z ∧ (c ≤ Z.of_nat (max_degree adj_matrix))%Z ∧ (c < Z.of_nat n)%Z) ∧
    schedule adj_matrix n dur dl prio desc colors = Ok (order, st, gantt, overdue) ∧
    order ≡ₚ seq 0 n ∧
    Forall2 (λ t row, gantt_entry desc st dur colors t = Ok row) order gantt ∧
    allocate cmap_hex n_colors adj_matrix n dur dl prio desc =
      (bars ← comprehension
                 (add_trace gantt colors
                            (generate_color_map cmap_hex (Pos.to_nat n_colors)))
                 order;
       Ok {| alloc_colors := colors; alloc_node_colors := cols;
             alloc_sorted_tasks := order; alloc_start_times := st;
             alloc_gantt_data := gantt; alloc_bars := bars;
             alloc_overdue := overdue; alloc_error := overdue_error overdue |}).
Proof.
  destruct (greedy_coloring_bounds adj_matrix n Hsquare) as (colors & Hcolors & Hlen & Hbounds).
  destruct (node_colors_Ok cmap_hex n_colors colors n Hlen) as (cols & Hcols & _).
  destruct (schedule_Ok adj_matrix n dur dl prio desc colors)
    as (order & st & gantt & overdue & Hrun & [Hperm _] & _ & Hrows & _).
  { do 5 (split; [done|]). done. }
  exists colors, cols, order, st, gantt, overdue. do 6 (split; [done|]).
  apply schedule_Ok_inv in Hrun as (Horder & Hst & Hgantt & Hoverdue).
  unfold allocate. rewrite Hcolors. simpl. rewrite Hcols. simpl.
  rewrite Horder. simpl. rewrite Hst. simpl. rewrite Hgantt. simpl.
  destruct (comprehension _ order) as [bars|e]; simpl; [|done].
  by rewrite Hoverdue.
Qed.
End Allocate.

Section AllocateProperties.
Variable cmap_hex : nat → nat → string.
Variable n_colors : positive.
Variable adj_matrix : matrix.
Variable n : nat.
Variable dur dl prio : gmap nat Z.
Variable desc : gmap nat string.

Lemma allocate_all_bars :
  square adj_matrix n → defined_on dur n → defined_on dl n →
  defined_on prio n → defined_on desc n →
  (Z.of_nat (max_degree adj_matrix) < Z.pos n_colors)%Z ∨ n ≤ Pos.to_nat n_colors →
  ∃ colors cols order st gantt bars overdue,
    allocate cmap_hex n_colors adj_matrix n dur dl prio desc =
      Ok {| alloc_colors := colors; alloc_node_colors := cols;
            alloc_sorted_tasks := order; alloc_start_times := st;
            alloc_gantt_data := gantt; alloc_bars := bars;
            alloc_overdue := overdue; alloc_error := overdue_error overdue |} ∧
    greedy_coloring adj_matrix = Ok colors ∧
    schedule adj_matrix n dur dl prio desc colors = Ok (order, st, gantt, overdue) ∧
    order ≡ₚ seq 0 n ∧
    Forall2 (λ t row, gantt_entry desc st dur colors t = Ok row) order gantt ∧
    Forall2 (λ t b, add_trace gantt colors
                      (generate_color_map cmap_hex (Pos.to_nat n_colors)) t = Ok b)
            order bars.
Proof.
  intros Hsq Hdur Hdl Hprio Hdesc Henough.
  destruct (allocate_bars cmap_hex n_colors adj_matrix n dur dl prio desc
              Hsq Hdur Hdl Hprio Hdesc)
    as (colors & cols & order & st & gantt & overdue & Hcolors & Hlen & Hbounds &
        Hrun & Hperm & Hrows & ->).
  destruct (comprehension_total
              (add_trace gantt colors
                         (generate_color_map cmap_hex (Pos.to_nat n_colors))) order)
    as [bars Hbars].
  { intros t Ht. rewrite Hperm in Ht. apply elem_of_seq in Ht.
    rewrite add_trace_lookup.
    destruct (lookup_lt_is_Some_2 gantt t) as [row ->].
    { rewrite <- (Forall2_length _ _ _ Hrows), Hperm, length_seq. lia. }
    destruct (lookup_lt_is_Some_2 colors t) as [c Hc]; [lia|]. rewrite Hc.
    rewrite generate_color_map_lookup, decide_True; [by eexists|].
    destruct (Hbounds t c Hc) as (? & ? & ?). lia. }
  exists colors, cols, order, st, gantt, bars, overdue.
  rewrite Hbars. simpl. do 5 (split; [done|]). by apply comprehension_Ok.
Qed.

(** X14. With more display colours than the largest number of neighbours of
    a node, or at least as many as tasks, the [try] block of [main] raises
    nothing: its colours are those of [greedy_coloring], its timeline that of
    the scheduling statements on these colours, and one bar is drawn per
    task. *)
Theorem allocate_enough_colors :
  square adj_matrix n → defined_on dur n → defined_on dl n →
  defined_on prio n → defined_on desc n →
  (Z.of_nat (max_degree adj_matrix) < Z.pos n_colors)%Z ∨ n ≤ Pos.to_nat n_colors →
  ∃ a, allocate cmap_hex n_colors adj_matrix n dur dl prio desc = Ok a ∧
       greedy_coloring adj_matrix = Ok (alloc_colors a) ∧
       schedule adj_matrix n dur dl prio desc (alloc_colors a) =
         Ok (alloc_sorted_tasks a, alloc_start_times a, alloc_gantt_data a,
             alloc_overdue a) ∧
       length (alloc_bars a) = n ∧
       alloc_error a = overdue_error (alloc_overdue a).
Proof.
  intros Hsq Hdur Hdl Hprio Hdesc Henough.
  destruct (allocate_all_bars Hsq Hdur Hdl Hprio Hdesc Henough)
    as (colors & cols & order & st & gantt & bars & overdue & -> & Hcolors &
        Hrun & Hperm & _ & Hbars).
  eexists. split; [done|]. simpl. do 2 (split; [done|]). split; [|done].
  apply Forall2_length in Hbars. by rewrite <- Hbars, Hperm, length_seq.
Qed.

(** X15. With a colour that is not below the number of display colours, the
    [try] block of [main] raises [KeyError] when it draws the bars: the
    overdue tasks are not reported. *)
Theorem allocate_KeyError colors :
  square adj_matrix n → defined_on dur n → defined_on dl n →
  defined_on prio n → defined_on desc n →
  greedy_coloring adj_matrix = Ok colors →
  (∃ c, c ∈ colors ∧ (Z.pos n_colors ≤ c)%Z) →
  allocate cmap_hex n_colors adj_matrix n dur dl prio desc = Raise KeyError.
Proof.
  intros Hsq Hdur Hdl Hprio Hdesc Hgreedy (c & Hc & Hlarge).
  destruct (allocate_bars cmap_hex n_colors adj_matrix n dur dl prio desc
              Hsq Hdur Hdl Hprio Hdesc)
    as (colors' & cols & order & st & gantt & overdue & Hcolors & Hlen & _ &
        _ & Hperm & Hrows & ->).
  assert (colors' = colors) as -> by congruence.
  rewrite (comprehension_Raise _ order KeyError); [done| |].
  - intros t Ht. rewrite Hperm in Ht. apply elem_of_seq in Ht.
    rewrite add_trace_lookup.
    destruct (lookup_lt_is_Some_2 gantt t) as [row ->].
    { rewrite <- (Forall2_length _ _ _ Hrows), Hperm, length_seq. lia. }
    destruct (lookup_lt_is_Some_2 colors t) as [ct ->]; [lia|].
    destruct (_ !! ct); [left; by eexists|by right].
  - apply list_elem_of_lookup_1 in Hc as [i Hi]. apply lookup_lt_Some in Hi as Hlt.
    exists i. split; [rewrite Hperm, elem_of_seq; lia|].
    rewrite add_trace_lookup, Hi.
    destruct (lookup_lt_is_Some_2 gantt i) as [row ->].
    { rewrite <- (Forall2_length _ _ _ Hrows), Hperm, length_seq. lia. }
    by rewrite generate_color_map_lookup, decide_False by lia.
Qed.

(** X16. The bar drawn for the task [t] at position [k] of the priority order
    takes its label, its start, its length and its resource name from the row
    at index [t], which is the row of the task [u] at position [t] of the
    order, and its colour from the colour of [t] itself. *)
Theorem allocate_bar_rows :
  square adj_matrix n → defined_on dur n → defined_on dl n →
  defined_on prio n → defined_on desc n →
  (Z.of_nat (max_degree adj_matrix) < Z.pos n_colors)%Z ∨ n ≤ Pos.to_nat n_colors →
  ∃ a, allocate cmap_hex n_colors adj_matrix n dur dl prio desc = Ok a ∧
    ∀ k t, alloc_sorted_tasks a !! k = Some t →
      ∃ u b description start duration cu ct,
        alloc_sorted_tasks a !! t = Some u ∧ alloc_bars a !! k = Some b ∧
        desc !! u = Some description ∧ bar_y b = description ∧
        alloc_start_times a !! u = Some start ∧ bar_base b = start ∧
        dur !! u = Some duration ∧ bar_x b = duration ∧
        alloc_colors a !! u = Some cu ∧
        bar_name b = "Resource " +:+ pretty (cu + 1)%Z ∧
        alloc_colors a !! t = Some ct ∧
        bar_color b = cmap_hex (Pos.to_nat n_colors) (Z.to_nat ct).
Proof.
  intros Hsq Hdur Hdl Hprio Hdesc Henough.
  destruct (allocate_all_bars Hsq Hdur Hdl Hprio Hdesc Henough)
    as (colors & cols & order & st & gantt & bars & overdue & -> & _ &
        _ & _ & Hrows & Hbars).
  eexists. split; [done|]. simpl. intros k t Ht.
  destruct (Forall2_lookup_l _ _ _ _ _ Hbars Ht) as (b & Hb & Htrace).
  rewrite add_trace_lookup in Htrace.
  destruct (gantt !! t) as [row|] eqn:Hrow; [|done].
  destruct (colors !! t) as [ct|] eqn:Hct; [|done].
  rewrite generate_color_map_lookup in Htrace.
  case_decide; [|done]. injection Htrace as Hbar.
  destruct (Forall2_lookup_r _ _ _ _ _ Hrows Hrow) as (u & Hu & Hentry).
  apply gantt_entry_Ok in Hentry as (description & start & duration & cu &
                                       Hd & Hs & Hdu & Hcu & ->).
  exists u, b, description, start, duration, cu, ct. subst b. simpl.
  do 7 (split; [done|]). split; [lia|done].
Qed.
End AllocateProperties.

Lemma allocate_enough_colors_witness :
  ∃ a, allocate (λ _ i, pretty i) 2 scenario3_adj 2 scenario3_duration
                default_deadlines scenario3_priorities default_descriptions = Ok a ∧
       greedy_coloring scenario3_adj = Ok (alloc_colors a) ∧
       schedule scenario3_adj 2 scenario3_duration default_deadlines
                scenario3_priorities default_descriptions (alloc_colors a) =
         Ok (alloc_sorted_tasks a, alloc_start_times a, alloc_gantt_data a,
             alloc_overdue a) ∧
       length (alloc_bars a) = 2 ∧
       alloc_error a = overdue_error (alloc_overdue a).
Proof.
  apply allocate_enough_colors;
    [concrete_square|concrete_defined_on..|right; vm_compute; lia].
Defined.

Lemma allocate_KeyError_witness :
  allocate (λ _ i, pretty i) 1 scenario3_adj 2 scenario3_duration
           default_deadlines scenario3_priorities default_descriptions
    = Raise KeyError.
Proof.
  apply (allocate_KeyError (λ _ i, pretty i) 1 scenario3_adj 2 scenario3_duration
           default_deadlines scenario3_priorities default_descriptions [0; 1]%Z);
    [concrete_square|concrete_defined_on..|reflexivity|].
  exists 1%Z. split; [by right; left|lia].
Defined.

Lemma allocate_bar_rows_witness :
  ∃ a, allocate (λ _ i, pretty i) 2 scenario3_adj 2 scenario3_duration
                default_deadlines scenario3_priorities default_descriptions = Ok a ∧
    ∀ k t, alloc_sorted_tasks a !! k = Some t →
      ∃ u b description start duration cu ct,
        alloc_sorted_tasks a !! t = Some u ∧ alloc_bars a !! k = Some b ∧
        default_descriptions !! u = Some description ∧ bar_y b = description ∧
        alloc_start_times a !! u = Some start ∧ bar_base b = start ∧
        scenario3_duration !! u = Some duration ∧ bar_x b = duration ∧
        alloc_colors a !! u = Some cu ∧
        bar_name b = "Resource " +:+ pretty (cu + 1)%Z ∧
        alloc_colors a !! t = Some ct ∧
        bar_color b = (λ _ i, pretty i) (Pos.to_nat 2) (Z.to_nat ct).
Proof.
  apply allocate_bar_rows;
    [concrete_square|concrete_defined_on..|right; vm_compute; lia].
Defined.

(** ** What the [try] block reports *)

Lemma allocate_overdue_facts cmap_hex n_colors adj_matrix n dur dl prio desc :
  square adj_matrix n → defined_on dur n → defined_on dl n →
  defined_on prio n → defined_on desc n →
  (Z.of_nat (max_degree adj_matrix) < Z.pos n_colors)%Z ∨ n ≤ Pos.to_nat n_colors →
  ∃ colors cols order st gantt bars overdue,
    allocate cmap_hex n_colors adj_matrix n dur dl prio desc =
      Ok {| alloc_colors := colors; alloc_node_colors := cols;
            alloc_sorted_tasks := order; alloc_start_times := st;
            alloc_gantt_data := gantt; alloc_bars := bars;
            alloc_overdue := overdue; alloc_error := overdue_error overdue |} ∧
    (order ≡ₚ seq 0 n ∧ StronglySorted (task_before prio) order) ∧
    Forall2 (λ t row, gantt_entry desc st dur colors t = Ok row) order gantt ∧
    overdue `sublist_of` (task_label <$> order) ∧
    ∀ t, task_label t ∈ overdue ↔ t < n ∧ finish_after_deadline st dur dl t.
Proof.
  intros Hsq Hdur Hdl Hprio Hdesc Henough.
  destruct (allocate_all_bars cmap_hex n_colors adj_matrix n dur dl prio desc
              Hsq Hdur Hdl Hprio Hdesc Henough)
    as (colors & cols & order & st & gantt & bars & overdue & Hrun & Hcolors &
        Hsched & _).
  destruct (greedy_coloring_bounds adj_matrix n Hsq) as (colors' & Hcolors' & Hlen & _).
  assert (colors' = colors) as -> by congruence.
  destruct (schedule_Ok adj_matrix n dur dl prio desc colors)
    as (order' & st' & gantt' & overdue' & Hsched' & Horder & _ & Hrows & Hsub & Hover).
  { do 5 (split; [done|]). done. }
  rewrite Hsched in Hsched'. injection Hsched' as <- <- <- <-.
  by exists colors, cols, order, st, gantt, bars, overdue.
Qed.

(** X17. When the display colours suffice, the overdue message is shown
    exactly when some task finishes after its deadline, and it lists the
    overdue tasks. *)
Theorem overdue_error_shown cmap_hex n_colors adj_matrix n dur dl prio desc :
  square adj_matrix n → defined_on dur n → defined_on dl n →
  defined_on prio n → defined_on desc n →
  (Z.of_nat (max_degree adj_matrix) < Z.pos n_colors)%Z ∨ n ≤ Pos.to_nat n_colors →
  ∃ a, allocate cmap_hex n_colors adj_matrix n dur dl prio desc = Ok a ∧
    (alloc_error a = None ↔
     ∀ t, t < n → ¬ finish_after_deadline (alloc_start_times a) dur dl t) ∧
    (∀ message, alloc_error a = Some message →
       message = "The following tasks are overdue: " +:+ join ", " (alloc_overdue a)).
Proof.
  intros Hsq Hdur Hdl Hprio Hdesc Henough.
  destruct (allocate_overdue_facts cmap_hex n_colors adj_matrix n dur dl prio desc
              Hsq Hdur Hdl Hprio Hdesc Henough)
    as (colors & cols & order & st & gantt & bars & overdue & -> & _ & _ & Hsub & Hover).
  eexists. split; [done|]. simpl. split; [split|].
  - intros Hnone t Ht Hlate. destruct overdue as [|x rest]; [|done].
    assert (task_label t ∈ []) as Hin by (by apply Hover).
    by apply elem_of_nil in Hin.
  - intros Hall. destruct overdue as [|x rest]; [done|]. exfalso.
    assert (x ∈ task_label <$> order) as Hx.
    { eapply elem_of_sublist; [|done]. by left. }
    apply list_elem_of_fmap in Hx as (t & -> & _).
    destruct (proj1 (Hover t)) as [Ht Hlate]; [by left|]. by apply (Hall t).
  - intros message. destruct overdue; [done|]. by intros [= <-].
Qed.

Lemma overdue_error_shown_witness :
  ∃ a, allocate (λ _ i, pretty i) 2 scenario3_adj 2 scenario3_duration
                early_deadlines scenario3_priorities default_descriptions = Ok a ∧
    (alloc_error a = None ↔
     ∀ t, t < 2 → ¬ finish_after_deadline (alloc_start_times a) scenario3_duration
                                           early_deadlines t) ∧
    (∀ message, alloc_error a = Some message →
       message = "The following tasks are overdue: " +:+ join ", " (alloc_overdue a)) ∧
    alloc_error a = Some "The following tasks are overdue: Task 1, Task 2".
Proof.
  destruct (overdue_error_shown (λ _ i, pretty i) 2 scenario3_adj 2
              scenario3_duration early_deadlines scenario3_priorities
              default_descriptions) as (a & Hrun & Hshown & Hmessage);
    [concrete_square|concrete_defined_on..|right; vm_compute; lia|].
  exists a. do 3 (split; [done|]).
  unfold allocate in Hrun.
  assert (greedy_coloring scenario3_adj = Ok [0; 1]%Z) as Hcolors by (by vm_compute).
  rewrite Hcolors in Hrun. vm_compute in Hrun. by injection Hrun as <-.
Defined.

(** X18. When the display colours suffice, the overdue list of the [try]
    block holds the label of a task exactly when its start plus its duration
    exceeds its deadline; the tasks are visited in the priority order (by
    priority value, then by index), which is the order of the Gantt rows and
    of the overdue list; and a task is reported exactly when the finish of its
    row exceeds its deadline. *)
Theorem allocate_overdue_correct cmap_hex n_colors adj_matrix n dur dl prio desc :
  square adj_matrix n → defined_on dur n → defined_on dl n →
  defined_on prio n → defined_on desc n →
  (Z.of_nat (max_degree adj_matrix) < Z.pos n_colors)%Z ∨ n ≤ Pos.to_nat n_colors →
  ∃ a, allocate cmap_hex n_colors adj_matrix n dur dl prio desc = Ok a ∧
    alloc_sorted_tasks a ≡ₚ seq 0 n ∧
    StronglySorted (task_before prio) (alloc_sorted_tasks a) ∧
    (∀ t, task_label t ∈ alloc_overdue a ↔
          t < n ∧ finish_after_deadline (alloc_start_times a) dur dl t) ∧
    alloc_overdue a `sublist_of` (task_label <$> alloc_sorted_tasks a) ∧
    Forall2 (λ t row, ∃ deadline,
               dl !! t = Some deadline ∧
               (task_label t ∈ alloc_overdue a ↔ (Finish row > deadline)%Z))
            (alloc_sorted_tasks a) (alloc_gantt_data a).
Proof.
  intros Hsq Hdur Hdl Hprio Hdesc Henough.
  destruct (allocate_overdue_facts cmap_hex n_colors adj_matrix n dur dl prio desc
              Hsq Hdur Hdl Hprio Hdesc Henough)
    as (colors & cols & order & st & gantt & bars & overdue & -> & [Hperm Hsorted] &
        Hrows & Hsub & Hover).
  eexists. split; [done|]. simpl. do 4 (split; [done|]).
  apply Forall2_same_length_lookup. split; [by eapply Forall2_length|].
  intros k t row Ht Hrow.
  assert (t < n) as Hlt.
  { apply list_elem_of_lookup_2 in Ht. rewrite Hperm in Ht.
    apply elem_of_seq in Ht. lia. }
  destruct (Hdl t Hlt) as [deadline Hd]. exists deadline. split; [done|].
  destruct (Forall2_lookup_l _ _ _ _ _ Hrows Ht) as (row' & Hrow' & Hentry).
  assert (row' = row) as -> by congruence.
  apply gantt_entry_Ok in Hentry as (? & start & duration & ? & _ & Hs & Hdu & _ & ->).
  simpl. rewrite Hover. split.
  - intros (_ & ? & ? & ? & ? & ? & ? & ?). simplify_eq. done.
  - intros Hlate. split; [done|]. by exists start, duration, deadline.
Qed.

Lemma allocate_overdue_correct_witness :
  ∃ a, allocate (λ _ i, pretty i) 2 scenario3_adj 2 scenario3_duration
                early_deadlines scenario3_priorities default_descriptions = Ok a ∧
    alloc_sorted_tasks a ≡ₚ seq 0 2 ∧
    StronglySorted (task_before scenario3_priorities) (alloc_sorted_tasks a) ∧
    (∀ t, task_label t ∈ alloc_overdue a ↔
          t < 2 ∧ finish_after_deadline (alloc_start_times a) scenario3_duration
                                        early_deadlines t) ∧
    alloc_overdue a `sublist_of` (task_label <$> alloc_sorted_tasks a) ∧
    Forall2 (λ t row, ∃ deadline,
               early_deadlines !! t = Some deadline ∧
               (task_label t ∈ alloc_overdue a ↔ (Finish row > deadline)%Z))
            (alloc_sorted_tasks a) (alloc_gantt_data a).
Proof.
  apply allocate_overdue_correct;
    [concrete_square|concrete_defined_on..|right; vm_compute; lia].
Defined.

(** ** What the colours and the descriptions reach *)

(** X19. The order, the start times and the start and finish of the Gantt
    rows, all computed before the bars, do not depend on the colours, the
    descriptions or the deadlines. *)
Theorem schedule_numbers_noninterference adj_matrix n dur prio dl1 dl2 desc1 desc2
    colors1 colors2 :
  defined_on desc1 n → defined_on desc2 n →
  length colors1 = n → length colors2 = n →
  defined_on dl1 n → defined_on dl2 n →
  numbers <$> schedule adj_matrix n dur dl1 prio desc1 colors1 =
  numbers <$> schedule adj_matrix n dur dl2 prio desc2 colors2.
Proof.
  intros Hdesc1 Hdesc2 Hcolors1 Hcolors2 Hdl1 Hdl2. unfold schedule.
  destruct (sorted (seq 0 n) (getitem prio)) as [order|e] eqn:Horder; simpl; [|done].
  apply sorted_Ok_perm in Horder.
  assert (∀ t, t ∈ order → t < n) as Hlt.
  { intros t Ht. rewrite Horder in Ht. apply elem_of_seq in Ht. lia. }
  destruct (compute_start_times adj_matrix dur order n) as [st|e]; simpl; [|done].
  assert (fmap (M := list) times <$> comprehension (gantt_entry desc1 st dur colors1) order =
          fmap (M := list) times <$> comprehension (gantt_entry desc2 st dur colors2) order)
    as Hrows.
  { apply gantt_data_times. intros t Ht%Hlt.
    repeat split; [apply Hdesc1|apply Hdesc2|apply lookup_lt_is_Some_2..]; lia. }
  destruct (comprehension (gantt_entry desc1 st dur colors1) order)
    as [rows1|e1] eqn:Hrows1,
           (comprehension (gantt_entry desc2 st dur colors2) order)
    as [rows2|e2] eqn:Hrows2;
    simpl in Hrows; try discriminate Hrows; simpl.
  - injection Hrows as Hrows. apply comprehension_Ok in Hrows1, Hrows2.
    destruct (overdue_tasks_after_gantt _ _ _ dl1 _ _ _ Hrows1) as [overdue1 ->];
      [by intros t Ht%Hlt; apply Hdl1|].
    destruct (overdue_tasks_after_gantt _ _ _ dl2 _ _ _ Hrows2) as [overdue2 ->];
      [by intros t Ht%Hlt; apply Hdl2|].
    simpl. unfold numbers, timeline. simpl. by rewrite Hrows.
  - by injection Hrows as ->.
Qed.

Lemma schedule_numbers_noninterference_witness :
  numbers <$> schedule scenario3_adj 2 scenario3_duration default_deadlines
                       scenario3_priorities default_descriptions [0; 1]%Z =
  numbers <$> schedule scenario3_adj 2 scenario3_duration early_deadlines
                       scenario3_priorities other_descriptions other_colors.
Proof.
  apply schedule_numbers_noninterference;
    first [reflexivity|concrete_defined_on].
Defined.

Lemma bars_total gantt colors color_map (order : list nat) n :
  (∀ t, t ∈ order → t < n) → length gantt = n → length colors = n →
  (∀ c, c ∈ colors → is_Some (color_map !! c)) →
  ∃ bars, comprehension (add_trace gantt colors color_map) order = Ok bars.
Proof.
  intros Hlt Hgantt Hcolors Hkeys. apply comprehension_total. intros t Ht%Hlt.
  rewrite add_trace_lookup.
  destruct (lookup_lt_is_Some_2 gantt t) as [row ->]; [lia|].
  destruct (lookup_lt_is_Some_2 colors t) as [c Hc]; [lia|]. rewrite Hc.
  destruct (Hkeys c) as [color ->]; [by eapply list_elem_of_lookup_2|]. by eexists.
Qed.

(** X20. As long as every colour of both runs has a display colour, two runs
    of the statements that follow the colouring, on the same matrix,
    durations, deadlines and priorities, agree on the order, the start times,
    the start and finish of every row and the overdue list, whatever their
    colours and descriptions; they also raise the same exception, if any. *)
Theorem execution_timeline_noninterference adj_matrix n dur dl prio desc1 desc2
    colors1 colors2 color_map :
  defined_on desc1 n → defined_on desc2 n →
  length colors1 = n → length colors2 = n →
  (∀ c, c ∈ colors1 → is_Some (color_map !! c)) →
  (∀ c, c ∈ colors2 → is_Some (color_map !! c)) →
  report <$> execution_timeline adj_matrix n dur dl prio desc1 colors1 color_map =
  report <$> execution_timeline adj_matrix n dur dl prio desc2 colors2 color_map.
Proof.
  intros Hdesc1 Hdesc2 Hcolors1 Hcolors2 Hkeys1 Hkeys2. unfold execution_timeline.
  destruct (sorted (seq 0 n) (getitem prio)) as [order|e] eqn:Horder; simpl; [|done].
  apply sorted_Ok_perm in Horder.
  assert (∀ t, t ∈ order → t < n) as Hlt.
  { intros t Ht. rewrite Horder in Ht. apply elem_of_seq in Ht. lia. }
  assert (length order = n) as Hlen by (by rewrite Horder, length_seq).
  destruct (compute_start_times adj_matrix dur order n) as [st|e]; simpl; [|done].
  assert (fmap (M := list) times <$> comprehension (gantt_entry desc1 st dur colors1) order =
          fmap (M := list) times <$> comprehension (gantt_entry desc2 st dur colors2) order)
    as Hrows.
  { apply gantt_data_times. intros t Ht%Hlt.
    repeat split; [apply Hdesc1|apply Hdesc2|apply lookup_lt_is_Some_2..]; lia. }
  destruct (comprehension (gantt_entry desc1 st dur colors1) order)
    as [rows1|e1] eqn:Hrows1,
           (comprehension (gantt_entry desc2 st dur colors2) order)
    as [rows2|e2] eqn:Hrows2;
    simpl in Hrows; try discriminate Hrows; simpl.
  - injection Hrows as Hrows. apply comprehension_Ok, Forall2_length in Hrows1, Hrows2.
    destruct (bars_total rows1 colors1 color_map order n) as [bars1 ->];
      [done|lia|done|done|].
    destruct (bars_total rows2 colors2 color_map order n) as [bars2 ->];
      [done|lia|done|done|].
    simpl. destruct (overdue_tasks st dur dl order) as [overdue|e]; simpl; [|done].
    by rewrite Hrows.
  - by injection Hrows as ->.
Qed.

Lemma execution_timeline_noninterference_witness :
  report <$> execution_timeline scenario3_adj 2 scenario3_duration early_deadlines
               scenario3_priorities default_descriptions [0; 1]%Z
               (generate_color_map (λ _ i, pretty i) 2) =
  report <$> execution_timeline scenario3_adj 2 scenario3_duration early_deadlines
               scenario3_priorities other_descriptions [1; 0]%Z
               (generate_color_map (λ _ i, pretty i) 2).
Proof.
  apply execution_timeline_noninterference;
    try first [reflexivity|concrete_defined_on].
  - intros c Hc. apply elem_of_cons in Hc as [->|Hc]; [by eexists|].
    apply elem_of_cons in Hc as [->|Hc]; [by eexists|]. by apply elem_of_nil in Hc.
  - intros c Hc. apply elem_of_cons in Hc as [->|Hc]; [by eexists|].
    apply elem_of_cons in Hc as [->|Hc]; [by eexists|]. by apply elem_of_nil in Hc.
Defined.
